(** * Virus presence in ants: radial chart layout and selection

    A shallow embedding of [virusPresenceInAnts.js]: the CSV loader, the
    indentation assignment, the radial layout of the presence dots and the
    selection handlers, together with the properties of the chart that
    follow from the code.

    Conventions of the embedding.
    - A JavaScript string is a [string]: a sequence of code units below 256.
    - A JavaScript number that counts something is a [nat]; an indentation
      level is a [jsint] (an integer or [-Infinity]); angles, coordinates and
      radii are real numbers ([R]): IEEE rounding is idealised away, and a
      division by zero is outside the model (the theorems about angles
      assume a positive presence count).
    - A JavaScript object used as a map is an association list of its own
      properties, with the lookups through [Object.prototype] written out
      where the code performs them.
    - A handler that throws stops where it throws; the state it has written
      until then stays. *)

From Stdlib Require Import String Ascii List ZArith NArith Bool Arith Lia.
From Stdlib Require Import DecimalString Reals Lra Permutation.
Import ListNotations.
Open Scope string_scope.
Open Scope list_scope.
Open Scope nat_scope.

(* ================================================================== *)
(** ** JavaScript primitives used by the script *)

Module JS.

(** [s.split(sep)] for a one-character separator. *)
Fixpoint split (sep : ascii) (s : string) : list string :=
  match s with
  | EmptyString => [EmptyString]
  | String c s' =>
      if Ascii.eqb c sep then EmptyString :: split sep s'
      else match split sep s' with
           | [] => [String c EmptyString]
           | w :: ws => String c w :: ws
           end
  end.

(** The class [\s] on code units below 256: TAB, LF, VT, FF, CR, space and
    the no-break space. *)
Definition is_ws (c : ascii) : bool :=
  let n := nat_of_ascii c in
  ((9 <=? n) && (n <=? 13)) || (n =? 32) || (n =? 160).

(** [s.replace(/\s+/g, "")]. *)
Fixpoint strip_ws (s : string) : string :=
  match s with
  | EmptyString => EmptyString
  | String c s' => if is_ws c then strip_ws s' else String c (strip_ws s')
  end.

(** [arr.includes(x)] on an array of strings. *)
Definition includes (arr : list string) (x : string) : bool :=
  existsb (String.eqb x) arr.


(** A value that is a string or [undefined], and its conversion to a string
    (as a property key, or under [+]). *)
Definition to_str (v : option string) : string :=
  match v with Some s => s | None => "undefined" end.

Definition is_digit (c : ascii) : bool :=
  let n := nat_of_ascii c in (48 <=? n) && (n <=? 57).

Definition is_hex_digit (c : ascii) : bool :=
  let n := nat_of_ascii c in
  is_digit c || ((65 <=? n) && (n <=? 70)) || ((97 <=? n) && (n <=? 102)).

(** The longest prefix of [s] whose characters satisfy [p]. *)
Fixpoint take_while (p : ascii -> bool) (s : string) : string :=
  match s with
  | EmptyString => EmptyString
  | String c s' => if p c then String c (take_while p s') else EmptyString
  end.

Fixpoint all_chars (p : ascii -> bool) (s : string) : bool :=
  match s with
  | EmptyString => true
  | String c s' => p c && all_chars p s'
  end.

Fixpoint drop_while (p : ascii -> bool) (s : string) : string :=
  match s with
  | EmptyString => EmptyString
  | String c s' => if p c then drop_while p s' else s
  end.

Definition is_zero_char (c : ascii) : bool := (nat_of_ascii c =? 48).

(** [parseInt(s) == 0]: after leading white space and an optional sign, the
    digits that [parseInt] reads (hexadecimal after [0x] or [0X], decimal
    otherwise) are at least one and all zero.  [NaN == 0] is false. *)
Definition parseInt_is_zero (s : string) : bool :=
  let s1 := drop_while is_ws s in
  let s2 := match s1 with
            | String c r =>
                if (nat_of_ascii c =? 43) || (nat_of_ascii c =? 45) then r
                else s1
            | EmptyString => s1
            end in
  let digits :=
    match s2 with
    | String c0 (String cx r) =>
        if is_zero_char c0 &&
           ((nat_of_ascii cx =? 120) || (nat_of_ascii cx =? 88))
        then take_while is_hex_digit r
        else take_while is_digit s2
    | _ => take_while is_digit s2
    end in
  negb (String.eqb digits "") && all_chars is_zero_char digits.

(** [parseInt(v) == 0] for a string or [undefined]. *)
Definition parseInt_eq0 (v : option string) : bool :=
  parseInt_is_zero (to_str v).

(** The value of a string of decimal digits. *)
Fixpoint digits_val (acc : N) (s : string) : N :=
  match s with
  | EmptyString => acc
  | String c s' =>
      digits_val (acc * 10 + (N.of_nat (nat_of_ascii c) - 48))%N s'
  end.

(** An array index: the canonical decimal string of an integer below
    [2^32 - 1].  [Object.keys] lists these keys first, in ascending order. *)
Definition array_index (s : string) : option N :=
  match s with
  | EmptyString => None
  | String c r =>
      if all_chars is_digit s
         && (negb (is_zero_char c) || String.eqb r "")
         && (String.length s <=? 10)
         && (digits_val 0 s <? 4294967295)%N
      then Some (digits_val 0 s) else None
  end.

(** The property names every object inherits from [Object.prototype]. *)
Definition proto_names : list string :=
  [ "constructor"; "__defineGetter__"; "__defineSetter__"; "hasOwnProperty";
    "__lookupGetter__"; "__lookupSetter__"; "isPrototypeOf";
    "propertyIsEnumerable"; "toString"; "valueOf"; "__proto__";
    "toLocaleString" ].

(** An integer or [-Infinity] (the value of [Math.max()] without
    arguments). *)
Inductive jsint : Type :=
| Int (z : Z)
| NegInfinity.

Definition jsint_succ (x : jsint) : jsint :=
  match x with Int z => Int (z + 1) | NegInfinity => NegInfinity end.

(** [Math.max(...l)] for a list of integers. *)
Definition Math_max (l : list Z) : jsint :=
  match l with
  | [] => NegInfinity
  | x :: r => Int (fold_left Z.max r x)
  end.

End JS.

(* ================================================================== *)
(** ** Objects used as maps *)

Module Obj.

Section Own.
Context {A : Type}.

(** The own properties of an object, in insertion order. *)
Definition t := list (string * A).

Fixpoint get (k : string) (o : t) : option A :=
  match o with
  | [] => None
  | (k', v) :: r => if String.eqb k' k then Some v else get k r
  end.

Definition has (k : string) (o : t) : bool :=
  match get k o with Some _ => true | None => false end.

(** [o[k] = v]: an existing key keeps its place. *)
Fixpoint set (k : string) (v : A) (o : t) : t :=
  match o with
  | [] => [(k, v)]
  | (k', v') :: r =>
      if String.eqb k' k then (k', v) :: r else (k', v') :: set k v r
  end.

Fixpoint insert_index (n : N) (k : string) (l : list (N * string))
  : list (N * string) :=
  match l with
  | [] => [(n, k)]
  | (m, k') :: r =>
      if (n <? m)%N then (n, k) :: l else (m, k') :: insert_index n k r
  end.

Definition index_keys (o : t) : list (N * string) :=
  fold_right (fun kv acc =>
                match JS.array_index (fst kv) with
                | Some n => insert_index n (fst kv) acc
                | None => acc
                end) [] o.

Definition is_name (k : string) : bool :=
  match JS.array_index k with Some _ => false | None => true end.

(** [Object.keys(o)]: array indices in ascending order, then the other
    keys in insertion order. *)
Definition keys (o : t) : list string :=
  map snd (index_keys o) ++ filter is_name (map fst o).

End Own.
Arguments t : clear implicits.

End Obj.

(* ================================================================== *)
(** ** The data loader *)

(** One parsed line: column title to stripped cell.  Assigning a string to
    [__proto__] leaves the object as it is, and reading [__proto__] yields
    [Object.prototype], which every use here converts to a string.  The
    other keys the script reads are column titles, which every kept line
    owns, ["Virus species"], ["Classification"] and ["undefined"], which
    [Object.prototype] does not have. *)
Definition lineData := Obj.t string.

Definition ld_set (k v : string) (ld : lineData) : lineData :=
  if String.eqb k "__proto__" then ld else Obj.set k v ld.

Definition ld_get (k : string) (ld : lineData) : option string :=
  if String.eqb k "__proto__" then Some "[object Object]" else Obj.get k ld.

(** The data of a virus with several presences. *)
Record vmp_entry : Type := mkVmp {
  indentLevel : JS.jsint;
  presenceCnt : nat;
  antSpecies : list string;
  degArr : list R;
  vi : nat
}.

(** [vMP]: its own properties, and the entry that [vMP["__proto__"] = {...}]
    has made its prototype, if any. *)
Record vmp_obj : Type := mkVmpObj {
  own : Obj.t vmp_entry;
  proto : option vmp_entry
}.

Definition proto_set (o : vmp_obj) : bool :=
  match proto o with Some _ => true | None => false end.

Definition entry_fields : list string :=
  ["indentLevel"; "presenceCnt"; "antSpecies"; "degArr"; "vi"].

Definition vmp_set (k : string) (e : vmp_entry) (o : vmp_obj) : vmp_obj :=
  if String.eqb k "__proto__" then mkVmpObj (own o) (Some e)
  else mkVmpObj (Obj.set k e (own o)) (proto o).

(** [k in vMP]. *)
Definition vmp_in (k : string) (o : vmp_obj) : bool :=
  Obj.has k (own o) || JS.includes JS.proto_names k
  || (proto_set o && JS.includes entry_fields k).

(** [vMP[k]] where it is an entry: an own property, or the prototype that
    [__proto__] names.  Every other inherited value has none of the fields
    of an entry. *)
Definition vmp_read (k : string) (o : vmp_obj) : option vmp_entry :=
  if String.eqb k "__proto__" then proto o else Obj.get k (own o).

(** The ant species of a column: [names[0] + " " + names[1]]. *)
Definition aSpName_of (title : string) : string :=
  let names := JS.split " " title in
  (JS.to_str (nth_error names 0) ++ " " ++ JS.to_str (nth_error names 1))%string.

Definition push_new (arr : list string) (x : string) : list string :=
  if JS.includes arr x then arr else arr ++ [x].

(** The column titles: the header items that are not blank. *)
Definition colTitle_of (header : string) : list string :=
  filter (fun it => negb (String.eqb (JS.strip_ws it) ""))
         (JS.split "," header).

(** The ant species names, from column 2 on. *)
Definition aSpNames_of (colTitle : list string) : list string :=
  fold_left (fun acc title => push_new acc (aSpName_of title))
            (skipn 2 colTitle) [].

(** The inner loop over the columns of one line. *)
Record row_acc : Type := mkRow {
  ra_line : lineData;
  ra_cnt : nat;
  ra_species : list string
}.

Definition cell_step (acc : row_acc) (tc : string * string) : row_acc :=
  let colVal := JS.strip_ws (snd tc) in
  if String.eqb colVal "1" then
    mkRow (ld_set (fst tc) colVal (ra_line acc))
          (S (ra_cnt acc))
          (push_new (ra_species acc) (aSpName_of (fst tc)))
  else
    mkRow (ld_set (fst tc) colVal (ra_line acc)) (ra_cnt acc) (ra_species acc).

Definition parse_row (colTitle items : list string) : row_acc :=
  fold_left cell_step (combine colTitle items) (mkRow [] 0 []).

Record loaded : Type := mkLoaded {
  csvData : list lineData;
  numVP : nat;
  vMP : vmp_obj
}.

(** The outer loop body, for line [li]. [numVP] grows with [vMP_presenceCnt],
    one per cell that is ["1"]. *)
Definition line_step (colTitle : list string) (st : loaded)
  (l : nat * string) : loaded :=
  let items := JS.split "," (snd l) in
  if length items <? length colTitle then st
  else
    let acc := parse_row colTitle items in
    let vSp := JS.to_str (ld_get (JS.to_str (nth_error colTitle 0))
                                 (ra_line acc)) in
    mkLoaded (csvData st ++ [ra_line acc])
             (numVP st + ra_cnt acc)
             (if 1 <? ra_cnt acc
              then vmp_set vSp (mkVmp (JS.Int 0) (ra_cnt acc) (ra_species acc)
                                      [] (fst l - 1)) (vMP st)
              else vMP st).

Definition lines_of (data : string) : list string := JS.split (ascii_of_nat 10) data.

Definition header_of (data : string) : string :=
  JS.to_str (nth_error (lines_of data) 0).

Definition parse (data : string) : loaded :=
  let lines := lines_of data in
  let colTitle := colTitle_of (header_of data) in
  fold_left (line_step colTitle)
            (combine (seq 1 (length lines - 1)) (skipn 1 lines))
            (mkLoaded [] 0 (mkVmpObj [] None)).

(* ================================================================== *)
(** ** Indentation assignment *)

Definition set_level (k : string) (lv : JS.jsint) (o : Obj.t vmp_entry)
  : Obj.t vmp_entry :=
  match Obj.get k o with
  | Some e => Obj.set k (mkVmp lv (presenceCnt e) (antSpecies e)
                               (degArr e) (vi e)) o
  | None => o
  end.

(** The inner loop body for ant species [aSp]: [c] is [indentLevel[si]]. *)
Definition species_step (aSp : string) (st : Z * Obj.t vmp_entry)
  (vSp : string) : Z * Obj.t vmp_entry :=
  match Obj.get vSp (snd st) with
  | Some e =>
      if 1 <? length (antSpecies e) then st
      else if negb (JS.includes (antSpecies e) aSp) then st
      else ((fst st + 1)%Z, set_level vSp (JS.Int (fst st + 1)) (snd st))
  | None => st
  end.

(** The loop over the ant species: the array [indentLevel] and [vMP]. *)
Definition single_step (st : list Z * Obj.t vmp_entry) (aSp : string)
  : list Z * Obj.t vmp_entry :=
  let r := fold_left (species_step aSp) (Obj.keys (snd st)) (0%Z, snd st) in
  (fst st ++ [fst r], snd r).

Definition assign_single (aSpNames : list string) (o : Obj.t vmp_entry)
  : list Z * Obj.t vmp_entry :=
  fold_left single_step aSpNames ([], o).

(** The loop over the viruses found in several ant species. *)
Definition cross_step (st : JS.jsint * Obj.t vmp_entry) (vSp : string)
  : JS.jsint * Obj.t vmp_entry :=
  match Obj.get vSp (snd st) with
  | Some e =>
      if 1 <? length (antSpecies e)
      then (JS.jsint_succ (fst st),
            set_level vSp (JS.jsint_succ (fst st)) (snd st))
      else st
  | None => st
  end.

Definition assign_cross (start : JS.jsint) (o : Obj.t vmp_entry)
  : JS.jsint * Obj.t vmp_entry :=
  fold_left cross_step (Obj.keys o) (start, o).

(** Lines 83 to 105: both loops. *)
Definition assign_indent (aSpNames : list string) (o : Obj.t vmp_entry)
  : Obj.t vmp_entry :=
  let s := assign_single aSpNames o in
  snd (assign_cross (JS.jsint_succ (JS.Math_max (fst s))) (snd s)).

Definition indent_vMP (aSpNames : list string) (m : vmp_obj) : vmp_obj :=
  mkVmpObj (assign_indent aSpNames (own m)) (proto m).

(** The loader followed by the indentation assignment. *)
Definition colTitle (data : string) : list string :=
  colTitle_of (header_of data).

Definition aSpNames (data : string) : list string :=
  aSpNames_of (colTitle data).

Definition load (data : string) : loaded :=
  let p := parse data in
  mkLoaded (csvData p) (numVP p) (indent_vMP (aSpNames data) (vMP p)).

(* ================================================================== *)
(** ** The radial layout of the presence dots *)

(** The outcome of code that can throw a [TypeError] or leave the real
    numbers (a division by zero, [-Infinity]). *)
Inductive result (A : Type) : Type :=
| Ok (a : A)
| Throws
| NotFinite.
Arguments Ok {A} a.
Arguments Throws {A}.
Arguments NotFinite {A}.

Definition bind {A B : Type} (m : result A) (f : A -> result B) : result B :=
  match m with
  | Ok a => f a
  | Throws => Throws
  | NotFinite => NotFinite
  end.

(** A loop whose body can throw. *)
Definition for_each {A S : Type} (body : S -> A -> result S) (l : list A)
  (s : S) : result S :=
  fold_left (fun acc a => bind acc (fun st => body st a)) l (Ok s).

Open Scope R_scope.

(** [rot_pt(pt, ct, deg)]: rotate (clockwise) [pt] around [ct]. *)
Definition rot_pt (pt ct : R * R) (deg : R) : R * R :=
  let r := - deg * (PI / 180) in
  let tx := fst pt - fst ct in
  let ty := snd pt - snd ct in
  let x := (tx * cos r + ty * sin r) + fst ct in
  let y := (- tx * sin r + ty * cos r) + snd ct in
  (x, y).

Module Dot.
(** An element of [vpd].  [deg] is the value of the variable [deg] when the
    dot is pushed; the script keeps it in [pt] only.  The colour of the dot
    is left out. *)
Record t : Type := mk {
  x : R;
  y : R;
  r : R;
  aSi : nat;
  aPi : nat;
  vSp : option string;
  vCl : option string;
  deg : R
}.
End Dot.

(** The legend data: classification to the viruses drawn under it. *)
Definition legend := Obj.t (list (option string)).

Definition opt_eqb (a b : option string) : bool :=
  match a, b with
  | Some s, Some t => String.eqb s t
  | None, None => true
  | _, _ => false
  end.

Definition legend_in (k : string) (o : legend) : bool :=
  Obj.has k o || JS.includes JS.proto_names k.

Record drawn : Type := mkDrawn {
  cntDrawnVP : nat;
  vpd : list Dot.t;
  d_vMP : vmp_obj;
  tLeg : legend
}.

(** [vSp in vMP && vMP[vSp].antSpecies.length > 1]; [None] when reading
    [length] throws. *)
Definition cross_check (key : string) (m : vmp_obj) : option bool :=
  if vmp_in key m then
    match vmp_read key m with
    | Some e => Some (1 <? length (antSpecies e))
    | None => None
    end
  else Some false.

Definition numPopulations : nat := 3.

Section Layout.

Variable innerHeight : R.   (* window.innerHeight *)
Variable colTitle_ : list string.
Variable numVP_ : nat.

Definition svgH : R := innerHeight * 0.9.
Definition svgW : R := svgH * (16 / 9).
Definition ct : R * R := (svgW * 0.37, svgH / 2).
Definition vpDeg : R := 360 / INR numVP_.
Definition radIC : R := svgH * 0.39.
Definition radVP : R := (2 * PI * radIC) / INR numVP_ * 0.2.
Definition vMPInd : R := radVP * 2.

(** [posX] and the updated [vMP] for a dot of virus [key]. *)
Definition indent_pos (key : string) (deg : R) (m : vmp_obj)
  : result (R * vmp_obj) :=
  if vmp_in key m then
    match vmp_read key m with
    | Some e =>
        match indentLevel e with
        | JS.Int z =>
            Ok (fst ct + radIC - vMPInd * IZR z,
                vmp_set key (mkVmp (indentLevel e) (presenceCnt e)
                                   (antSpecies e) (degArr e ++ [deg + 90])
                                   (vi e)) m)
        | JS.NegInfinity => NotFinite
        end
    | None => Throws
    end
  else Ok (fst ct + radIC, m).

Definition legend_add (vCl vSp : option string) (o : legend)
  : result legend :=
  let k := JS.to_str vCl in
  let o1 := if legend_in k o then o else Obj.set k [] o in
  match Obj.get k o1 with
  | Some arr =>
      Ok (if existsb (opt_eqb vSp) arr then o1
          else Obj.set k (arr ++ [vSp]) o1)
  | None => Throws
  end.

(** The body of the innermost loop (lines 163 to 206) for species [si],
    population [pi] and line [row]. *)
Definition dot_step (si pi : nat) (st : drawn) (row : lineData)
  : result drawn :=
  let ci := (2 + si * numPopulations + pi)%nat in
  let cT := nth_error colTitle_ ci in
  if JS.parseInt_eq0 (ld_get (JS.to_str cT) row) then Ok st
  else
    match numVP_ with
    | O => NotFinite
    | S _ =>
        let deg := INR (cntDrawnVP st) * vpDeg + 180 in
        let vSp := ld_get "Virus species" row in
        bind (indent_pos (JS.to_str vSp) deg (d_vMP st)) (fun pm =>
        let pt := rot_pt (fst pm, snd ct) ct deg in
        match cross_check (JS.to_str vSp) (snd pm) with
        | None => Throws
        | Some c =>
            let _vpr := if c then radVP * 1.25 else radVP in
            let vCl := ld_get "Classification" row in
            bind (legend_add vCl vSp (tLeg st)) (fun leg =>
            Ok (mkDrawn (S (cntDrawnVP st))
                        (vpd st ++ [Dot.mk (fst pt) (snd pt) _vpr si pi vSp
                                           vCl deg])
                        (snd pm) leg))
        end)
    end.

Definition pop_step (rows : list lineData) (si : nat) (st : drawn)
  (pi : nat) : result drawn :=
  for_each (dot_step si pi) rows st.

Definition species_loop (rows : list lineData) (st : drawn) (si : nat)
  : result drawn :=
  for_each (pop_step rows si) (seq 0 numPopulations) st.

(** Lines 150 to 252, without the arcs. *)
Definition layout (nSpecies : nat) (rows : list lineData) (m : vmp_obj)
  : result drawn :=
  for_each (species_loop rows) (seq 0 nSpecies) (mkDrawn 0 [] m []).

End Layout.

(** The success callback up to the drawing data. *)
Definition chart (innerHeight : R) (data : string) : result drawn :=
  let l := load data in
  layout innerHeight (colTitle data) (numVP l)
         (length (aSpNames data)) (csvData l) (vMP l).

Close Scope R_scope.

(* ================================================================== *)
(** ** The legend and the drawn elements *)








(** A legend text with the two attributes the handlers write. *)
Record legTxt : Type := mkLegTxt {
  lt_id : string;
  fontWeight : string;
  textDecoration : option string
}.

(** The elements that [emphVPDots] appends: the connecting line with its
    points, and the virus name at a position with its anchor. *)
Inductive added : Type :=
| ConnLine (id : string) (pts : list (R * R))
| VpTxt (id : string) (x y : R) (anchor : string).


(** The state the handlers work on: [selectedEntry], the circles with
    their [id] and [r], the legend texts, and the appended elements, each
    in document order.  [d3.select("#" + id)] is the first element with
    that [id]; the three kinds of element have different [id] prefixes. *)
Record ui : Type := mkUi {
  selectedEntry : list string;
  circles : list (string * R);
  legTxts : list legTxt;
  appended : list added
}.



Fixpoint set_leg (id : string) (w : string) (dec : string)
  (ls : list legTxt) : list legTxt :=
  match ls with
  | [] => []
  | l :: rest =>
      if String.eqb (lt_id l) id then mkLegTxt (lt_id l) w (Some dec) :: rest
      else l :: set_leg id w dec rest
  end.


(* ================================================================== *)
(** ** The selection handlers *)






Section Handlers.

Variable vpd_ : list Dot.t.
Variable vMP_ : vmp_obj.
Variable tLeg_ : legend.
Variable ct_ : R * R.
Variable radVP_ : R.



Definition emphLegTxt (flagEmph : bool) (objId : string) (u : ui) : ui :=
  mkUi (selectedEntry u) (circles u)
       (if flagEmph then set_leg objId "bold" "underline" (legTxts u)
        else set_leg objId "normal" "none" (legTxts u))
       (appended u).













End Handlers.



(* ================================================================== *)
(** ** The layout, as the specification describes it *)

Open Scope R_scope.

(** The distance between two points. *)
Definition dist (p q : R * R) : R :=
  sqrt ((fst p - fst q) * (fst p - fst q) + (snd p - snd q) * (snd p - snd q)).

(** Column [ci] of a line counts as a presence for the layout. *)
Definition present (cT : list string) (ci : nat) (row : lineData) : bool :=
  negb (JS.parseInt_eq0 (ld_get (JS.to_str (nth_error cT ci)) row)).

(** The cells the layout visits and draws, in its order: ant species,
    then population, then line. *)
Definition traversal (cT : list string) (nSpecies : nat)
  (rows : list lineData) : list (nat * nat * lineData) :=
  flat_map (fun si =>
    flat_map (fun pi =>
      map (fun row => (si, pi, row))
          (filter (present cT (2 + si * numPopulations + pi)) rows))
      (seq 0 numPopulations))
    (seq 0 nSpecies).

(** The distance of a dot of virus [key] from the centre, as computed:
    [radIC], less [vMPInd] times the indentation level for a virus of the
    mapping [m]. *)
Definition rho (h : R) (n : nat) (m : vmp_obj) (key : string) : R :=
  if vmp_in key m then
    match vmp_read key m with
    | Some e =>
        match indentLevel e with
        | JS.Int z => radIC h - vMPInd h n * IZR z
        | JS.NegInfinity => radIC h
        end
    | None => radIC h
    end
  else radIC h.

(** The angle of slot [k]. *)
Definition slot_deg (n k : nat) : R := INR k * vpDeg n + 180.

(** The dot of slot [k] for the cell [t]. *)
Definition expected_dot (h : R) (n : nat) (m : vmp_obj) (k : nat)
  (t : nat * nat * lineData) : Dot.t :=
  let row := snd t in
  let vSp := ld_get "Virus species" row in
  let pt := rot_pt (fst (ct h) + rho h n m (JS.to_str vSp), snd (ct h))
                   (ct h) (slot_deg n k) in
  Dot.mk (fst pt) (snd pt)
         (match cross_check (JS.to_str vSp) m with
          | Some true => radVP h n * 1.25
          | _ => radVP h n
          end)
         (fst (fst t)) (snd (fst t)) vSp (ld_get "Classification" row)
         (slot_deg n k).

Definition dots_from (h : R) (n : nat) (m : vmp_obj) (k0 : nat)
  (ts : list (nat * nat * lineData)) : list Dot.t :=
  map (fun kt => expected_dot h n m (fst kt) (snd kt))
      (combine (seq k0 (length ts)) ts).

Close Scope R_scope.

(** What the layout leaves unchanged in an entry of [vMP]. *)
Definition shape (e : vmp_entry) : JS.jsint * list string :=
  (indentLevel e, antSpecies e).

Definition same_shape (m m' : vmp_obj) : Prop :=
  (forall k, option_map shape (Obj.get k (own m'))
             = option_map shape (Obj.get k (own m)))
  /\ option_map shape (proto m') = option_map shape (proto m).

(* ================================================================== *)
(** ** The loader, as the specification describes it *)

(** The lines the loader keeps, split into fields. *)
Definition kept (cT : list string) (lines : list string)
  : list (list string) :=
  filter (fun items => negb (length items <? length cT))
         (map (JS.split ",") lines).

Definition data_rows (data : string) : list (list string) :=
  kept (colTitle data) (skipn 1 (lines_of data)).

(** A cell that is the literal 1 after stripping. *)
Definition is_one (cell : string) : bool :=
  String.eqb (JS.strip_ws cell) "1".

(** The cells of a line that the loader reads, with their titles. *)
Definition cells (cT items : list string) : list (string * string) :=
  combine cT items.

Definition count_ones (cT items : list string) : nat :=
  length (filter (fun tc => is_one (snd tc)) (cells cT items)).

(** *** Well-formed input *)

Fixpoint nodupb (l : list string) : bool :=
  match l with
  | [] => true
  | a :: r => negb (JS.includes r a) && nodupb r
  end.

(** The keys under which the layout looks a line up in [vMP] and in the
    legend. *)
Definition name_key (row : lineData) : string :=
  JS.to_str (ld_get "Virus species" row).

Definition class_key (row : lineData) : string :=
  JS.to_str (ld_get "Classification" row).

(** A cell of the first two columns is not the literal 1; a cell of a
    population column is the literal 1 or is read as zero by [parseInt]. *)
Definition cell_ok (ci : nat) (cell : string) : bool :=
  if ci <? 2 then negb (is_one cell)
  else is_one cell || JS.parseInt_is_zero (JS.strip_ws cell).

(** The name and the classification of the line are not names that every
    object inherits, nor field names of an entry of [vMP]. *)
Definition row_ok (cT items : list string) : bool :=
  forallb (fun ic => cell_ok (fst ic) (snd ic))
          (combine (seq 0 (length cT)) items)
  && negb (JS.includes (JS.proto_names ++ entry_fields)
                       (name_key (ra_line (parse_row cT items))))
  && negb (JS.includes JS.proto_names
                       (class_key (ra_line (parse_row cT items)))).

(** The header has two columns and [numPopulations] columns for each ant
    species, all with different titles, and every kept line is
    well-formed. *)
Definition valid_csv (data : string) : bool :=
  let cT := colTitle data in
  (length cT =? 2 + numPopulations * length (aSpNames data))
  && nodupb cT
  && negb (JS.includes cT "__proto__")
  && forallb (row_ok cT) (data_rows data).

(* ================================================================== *)
(** ** The indentation levels, as the specification describes them *)

(** The indentation level and the ant species of a virus of the mapping. *)
Definition level_of (o : Obj.t vmp_entry) (k : string) : option JS.jsint :=
  option_map indentLevel (Obj.get k o).

Definition species_of (o : Obj.t vmp_entry) (k : string)
  : option (list string) :=
  option_map antSpecies (Obj.get k o).

(** A virus whose presences lie in the single ant species [aSp]. *)
Definition single_in (aSp : string) (o : Obj.t vmp_entry) (k : string)
  : bool :=
  match Obj.get k o with
  | Some e => negb (1 <? length (antSpecies e))
              && JS.includes (antSpecies e) aSp
  | None => false
  end.

(** A virus whose presences span several ant species. *)
Definition crosses (o : Obj.t vmp_entry) (k : string) : bool :=
  match Obj.get k o with
  | Some e => 1 <? length (antSpecies e)
  | None => false
  end.

(** The value of [indentLevel[si]] after the loop for [aSp]. *)
Definition species_count (o : Obj.t vmp_entry) (aSp : string) : Z :=
  Z.of_nat (length (filter (single_in aSp o) (Obj.keys o))).

Definition relevel (lv : JS.jsint) (e : vmp_entry) : vmp_entry :=
  mkVmp lv (presenceCnt e) (antSpecies e) (degArr e) (vi e).

(** [x + n] for a level that may be [-Infinity]. *)
Definition level_plus (x : JS.jsint) (n : Z) : JS.jsint :=
  match x with
  | JS.Int z => JS.Int (z + n)
  | JS.NegInfinity => JS.NegInfinity
  end.

(** The level from which the viruses across several species continue:
    [Math.max(...indentLevel) + 1]. *)
Definition cross_start (aSpNames : list string) (o : Obj.t vmp_entry)
  : JS.jsint :=
  JS.jsint_succ (JS.Math_max (map (species_count o) aSpNames)).

(** The key of a line in [vMP]: [lineData[colTitle[0]]]. *)
Definition row_key (cT items : list string) : string :=
  JS.to_str (ld_get (JS.to_str (nth_error cT 0))
                    (ra_line (parse_row cT items))).

(** The mapping after the loader and the indentation assignment. *)
Definition vmap (data : string) : Obj.t vmp_entry := own (vMP (load data)).

(** The viruses of the single ant species [aSp], and those across several
    species, in the order of [Object.keys(vMP)]. *)
Definition singles (data : string) (aSp : string) : list string :=
  filter (single_in aSp (vmap data)) (Obj.keys (vmap data)).

Definition crossers (data : string) : list string :=
  filter (crosses (vmap data)) (Obj.keys (vmap data)).

(** The entry that a line with several presences stores. *)
Definition stored (cT items : list string) (e : vmp_entry) : Prop :=
  1 < count_ones cT items
  /\ indentLevel e = JS.Int 0
  /\ presenceCnt e = count_ones cT items
  /\ antSpecies e = ra_species (parse_row cT items)
  /\ degArr e = [].

Definition stores (cT : list string) (rows : list (list string)) (m : vmp_obj) : Prop :=
  NoDup (map fst (own m))
  /\ (forall k e, vmp_read k m = Some e ->
        exists items, In items rows /\ row_key cT items = k /\ stored cT items e)
  /\ (forall items, In items rows -> 1 < count_ones cT items ->
        vmp_read (row_key cT items) m <> None).


(** The titles of the cells of a line that are the literal 1. *)
Definition one_titles (cT items : list string) : list string :=
  map fst (filter (fun tc => is_one (snd tc)) (cells cT items)).

(** The presences of a line lie in columns of exactly the two different
    ant species [a] and [b]. *)
Definition in_two_species (cT items : list string) (a b : string) : Prop :=
  a <> b /\
  forall x, In x (map aSpName_of (one_titles cT items)) <-> x = a \/ x = b.

(** The name and the classification of a line can be looked up without
    meeting an inherited property. *)
Definition name_ok (row : lineData) : Prop :=
  JS.includes (JS.proto_names ++ entry_fields) (name_key row) = false
  /\ JS.includes JS.proto_names (class_key row) = false.


(** The kept lines have different keys. *)
Definition unique_keys (data : string) : Prop :=
  NoDup (map (row_key (colTitle data)) (data_rows data)).

(** The columns that the layout visits. *)
Definition visited (nS : nat) : list nat :=
  flat_map (fun si => map (fun pi => 2 + si * numPopulations + pi)
                          (seq 0 numPopulations)) (seq 0 nS).

(** What the loops keep: the keys and the ant species of every virus. *)
Definition same_species (o o' : Obj.t vmp_entry) : Prop :=
  map fst o' = map fst o /\ forall k, species_of o' k = species_of o k.

(* ================================================================== *)
(** ** Sample files *)

(** A well-formed file: two ant species with three populations each; one
    line is too short and is skipped. *)
Definition sample_csv : string :=
  "Virus species,Classification,SpA x P1,SpA x P2,SpA x P3,SpB y P1,SpB y P2,SpB y P3
V1,C1,1,1,0,0,0,0
V2,C1,1,0,0,1,0,0
V3,C2,0,1,1,0,0,0
V4,C2,0,0,0,0,1,0
short,1
".



(** Absences left blank. *)
Definition blank_csv : string :=
  "Virus species,Classification,SpA x P1,SpA x P2,SpA x P3
V1,C1,1,,".

(** One virus, present in one population of each of two ant species. *)
Definition cross_csv : string :=
  "Virus species,Classification,SpA x P1,SpA x P2,SpA x P3,SpB y P1,SpB y P2,SpB y P3
V1,C1,1,0,0,1,0,0".

(** A first column that is not titled [Virus species]. *)
Definition other_title_csv : string :=
  "Virus,Class,SpA x P1,SpA x P2,SpA x P3
V1,C1,1,1,0".




(* ================================================================== *)
(** ** The radius and the size of the dots of a line *)

(** The distance from the centre for the dots of a line: [radIC], less
    [vMPInd] times the indentation level when the line has several
    presences. *)
Definition radius_of (h : R) (data : string) (items : list string) : R :=
  if 1 <? count_ones (colTitle data) items then
    match vmp_read (row_key (colTitle data) items) (vMP (load data)) with
    | Some e =>
        match indentLevel e with
        | JS.Int z =>
            (radIC h - vMPInd h (numVP (load data)) * IZR z)%R
        | JS.NegInfinity => radIC h
        end
    | None => radIC h
    end
  else radIC h.

(** The drawn size: [radVP], times 1.25 when the presences of the line
    span several ant species. *)
Definition size_of (h : R) (data : string) (items : list string) : R :=
  if 1 <? length (ra_species (parse_row (colTitle data) items))
  then (radVP h (numVP (load data)) * 1.25)%R
  else radVP h (numVP (load data)).

(* ================================================================== *)
(** ** Entries of the legend and of the chart *)





















(* ================================================================== *)
(** * Properties *)

(** ** Loops that can throw *)

Section ForEach.
Context {A S : Type} (body : S -> A -> result S).

Lemma fold_bind (l : list A) (r : result S) :
  fold_left (fun acc a => bind acc (fun st => body st a)) l r
  = bind r (for_each body l).
Proof.
  revert r; induction l as [|a l IH]; intros r; simpl.
  - destruct r; reflexivity.
  - rewrite IH. destruct r; simpl; auto.
    unfold for_each at 2. simpl. now rewrite IH.
Qed.

Lemma for_each_nil (s : S) : for_each body [] s = Ok s.
Proof. reflexivity. Qed.

Lemma for_each_cons (a : A) (l : list A) (s : S) :
  for_each body (a :: l) s = bind (body s a) (for_each body l).
Proof. unfold for_each at 1. simpl. apply fold_bind. Qed.

Lemma for_each_app (l1 l2 : list A) (s : S) :
  for_each body (l1 ++ l2) s = bind (for_each body l1 s) (for_each body l2).
Proof.
  revert s; induction l1 as [|a l1 IH]; intros s; simpl.
  - reflexivity.
  - rewrite !for_each_cons. destruct (body s a); simpl; auto.
Qed.

End ForEach.

Lemma bind_Ok {A B : Type} (m : result A) (f : A -> result B) (b : B) :
  bind m f = Ok b -> exists a, m = Ok a /\ f a = Ok b.
Proof. destruct m; simpl; intros H; try discriminate. eauto. Qed.

(** ** Objects *)

Section ObjFacts.
Context {A : Type}.

Lemma get_set (k k0 : string) (v : A) (o : Obj.t A) :
  Obj.get k (Obj.set k0 v o) = if String.eqb k0 k then Some v else Obj.get k o.
Proof.
  induction o as [|[k' v'] o IH]; simpl.
  - destruct (String.eqb k0 k); reflexivity.
  - destruct (String.eqb k' k0) eqn:E; simpl.
    + apply String.eqb_eq in E; subst k'.
      destruct (String.eqb k0 k); reflexivity.
    + destruct (String.eqb k' k) eqn:E2.
      * apply String.eqb_eq in E2; subst k'.
        rewrite String.eqb_sym in E. now rewrite E.
      * exact IH.
Qed.

Lemma keys_set_present (k : string) (v : A) (o : Obj.t A) :
  Obj.get k o <> None -> map fst (Obj.set k v o) = map fst o.
Proof.
  induction o as [|[k' v'] o IH]; simpl; intros H.
  - congruence.
  - destruct (String.eqb k' k) eqn:E; simpl.
    + reflexivity.
    + f_equal. now apply IH.
Qed.

Lemma keys_set_absent (k : string) (v : A) (o : Obj.t A) :
  Obj.get k o = None -> map fst (Obj.set k v o) = map fst o ++ [k].
Proof.
  induction o as [|[k' v'] o IH]; simpl; intros H.
  - reflexivity.
  - destruct (String.eqb k' k) eqn:E; simpl.
    + discriminate.
    + f_equal. now apply IH.
Qed.

Lemma get_in_keys (k : string) (o : Obj.t A) :
  Obj.get k o <> None <-> In k (map fst o).
Proof.
  induction o as [|[k' v'] o IH]; simpl.
  - split; [congruence | tauto].
  - destruct (String.eqb k' k) eqn:E.
    + apply String.eqb_eq in E. split; [auto | congruence].
    + apply String.eqb_neq in E. rewrite IH. split; [auto | intros [?|?]; congruence || auto].
Qed.

End ObjFacts.

(** ** The layout draws the traversal *)

Lemma same_shape_refl (m : vmp_obj) : same_shape m m.
Proof. split; auto. Qed.

Lemma same_shape_trans (m1 m2 m3 : vmp_obj) :
  same_shape m1 m2 -> same_shape m2 m3 -> same_shape m1 m3.
Proof.
  intros [H1 H1'] [H2 H2']. split.
  - intros k. now rewrite H2, H1.
  - now rewrite H2', H1'.
Qed.

Lemma same_shape_read (m m' : vmp_obj) (k : string) :
  same_shape m m' ->
  option_map shape (vmp_read k m') = option_map shape (vmp_read k m).
Proof.
  intros [H H']. unfold vmp_read. destruct (String.eqb k "__proto__"); auto.
Qed.

Lemma same_shape_in (m m' : vmp_obj) (k : string) :
  same_shape m m' -> vmp_in k m' = vmp_in k m.
Proof.
  intros [H H']. unfold vmp_in, Obj.has, proto_set.
  specialize (H k).
  destruct (Obj.get k (own m')), (Obj.get k (own m)); try discriminate;
    destruct (proto m'), (proto m); try discriminate; reflexivity.
Qed.

Lemma same_shape_cross (m m' : vmp_obj) (k : string) :
  same_shape m m' -> cross_check k m' = cross_check k m.
Proof.
  intros H. unfold cross_check. rewrite (same_shape_in _ _ k H).
  pose proof (same_shape_read _ _ k H) as R.
  destruct (vmp_in k m); auto.
  destruct (vmp_read k m'), (vmp_read k m); try discriminate; auto.
  simpl in R. injection R as _ R. now rewrite R.
Qed.

Lemma same_shape_rho (h : R) (n : nat) (m m' : vmp_obj) (k : string) :
  same_shape m m' -> rho h n m' k = rho h n m k.
Proof.
  intros H. unfold rho. rewrite (same_shape_in _ _ k H).
  pose proof (same_shape_read _ _ k H) as R.
  destruct (vmp_in k m); auto.
  destruct (vmp_read k m'), (vmp_read k m); try discriminate; auto.
  simpl in R. injection R as R _. now rewrite R.
Qed.

Lemma same_shape_set (m : vmp_obj) (k : string) (e e' : vmp_entry) :
  vmp_read k m = Some e -> shape e' = shape e ->
  same_shape m (vmp_set k e' m).
Proof.
  unfold vmp_read, vmp_set. intros H S.
  destruct (String.eqb k "__proto__") eqn:E; split; simpl; auto.
  - rewrite H. simpl. f_equal. exact S.
  - intros k1. rewrite get_set. destruct (String.eqb k k1) eqn:E1; auto.
    apply String.eqb_eq in E1; subst k1. rewrite H. simpl. f_equal. exact S.
Qed.

Lemma indent_pos_Ok (h : R) (n : nat) (key : string) (deg : R)
  (m m' : vmp_obj) (posX : R) :
  indent_pos h n key deg m = Ok (posX, m') ->
  posX = (fst (ct h) + rho h n m key)%R /\ same_shape m m'.
Proof.
  unfold indent_pos, rho. destruct (vmp_in key m).
  - destruct (vmp_read key m) as [e|] eqn:R; try discriminate.
    destruct (indentLevel e) eqn:L; try discriminate.
    intros H; injection H as <- <-. split.
    + unfold Rminus. now rewrite Rplus_assoc.
    + eapply same_shape_set; eauto. unfold shape; simpl. now rewrite L.
  - intros H; injection H as <- <-. split; auto using same_shape_refl.
Qed.

Ltac nil_case :=
  split; [assumption|];
  split; [reflexivity|];
  split; [lia|]; intros E; now elim E.

Section Characterisation.
Variables (h : R) (cT : list string) (n : nat) (m0 : vmp_obj).

Lemma dot_step_Ok (si pi : nat) (st st' : drawn) (row : lineData) :
  dot_step h cT n si pi st row = Ok st' ->
  same_shape m0 (d_vMP st) ->
  same_shape m0 (d_vMP st') /\
  if present cT (2 + si * numPopulations + pi) row
  then vpd st' = vpd st ++ [expected_dot h n m0 (cntDrawnVP st) (si, pi, row)]
       /\ cntDrawnVP st' = S (cntDrawnVP st) /\ n <> 0
  else st' = st.
Proof.
  unfold dot_step, present. intros H S0.
  destruct (JS.parseInt_eq0 _); simpl.
  - injection H as <-. auto.
  - destruct n as [|n'] eqn:En; try discriminate. rewrite <- En in *.
    apply bind_Ok in H as [[posX m1] [Hp H]].
    apply indent_pos_Ok in Hp as [-> S1]. simpl in H.
    destruct (cross_check _ m1) as [c|] eqn:C; try discriminate.
    apply bind_Ok in H as [leg [_ H]]. injection H as <-. simpl.
    assert (S01 : same_shape m0 m1) by (eapply same_shape_trans; eauto).
    split; [exact S01|]. split; [|split; [reflexivity|lia]].
    f_equal. f_equal. unfold expected_dot; simpl.
    rewrite (same_shape_cross _ _ _ S01) in C. rewrite C.
    rewrite <- (same_shape_rho h n _ _ _ S0).
    unfold slot_deg.
    destruct c; reflexivity.
Qed.

Lemma pop_step_Ok (rows : list lineData) (si pi : nat) (st st' : drawn) :
  pop_step h cT n rows si st pi = Ok st' ->
  same_shape m0 (d_vMP st) ->
  let ts := map (fun row => (si, pi, row))
                (filter (present cT (2 + si * numPopulations + pi)) rows) in
  same_shape m0 (d_vMP st') /\
  vpd st' = vpd st ++ dots_from h n m0 (cntDrawnVP st) ts /\
  cntDrawnVP st' = cntDrawnVP st + length ts /\
  (ts <> [] -> n <> 0).
Proof.
  unfold pop_step. revert st.
  induction rows as [|row rows IH]; intros st H S0; simpl.
  - injection H as <-. unfold dots_from; simpl. rewrite app_nil_r.
    nil_case.
  - rewrite for_each_cons in H. apply bind_Ok in H as [st1 [H1 H]].
    destruct (dot_step_Ok _ _ _ _ _ H1 S0) as [S1 D].
    specialize (IH _ H S1). simpl in IH. destruct IH as (S2 & V & C & N).
    destruct (present cT _ row); simpl.
    + destruct D as (V1 & C1 & N1). split; [exact S2|].
      rewrite V, V1, C, C1, <- app_assoc. simpl.
      unfold dots_from. simpl.
      split; [reflexivity|]. split; [lia|]. intros _; exact N1.
    + subst st1. auto.
Qed.

Lemma dots_from_app (k0 : nat) (t1 t2 : list (nat * nat * lineData)) :
  dots_from h n m0 k0 (t1 ++ t2)
  = dots_from h n m0 k0 t1 ++ dots_from h n m0 (k0 + length t1) t2.
Proof.
  unfold dots_from. revert k0; induction t1 as [|t t1 IH]; intros k0; simpl.
  - now rewrite Nat.add_0_r.
  - f_equal. rewrite IH. now rewrite Nat.add_succ_r.
Qed.

Lemma species_loop_Ok (rows : list lineData) (si : nat) (st st' : drawn) :
  species_loop h cT n rows st si = Ok st' ->
  same_shape m0 (d_vMP st) ->
  let ts := flat_map (fun pi =>
              map (fun row => (si, pi, row))
                  (filter (present cT (2 + si * numPopulations + pi)) rows))
              (seq 0 numPopulations) in
  same_shape m0 (d_vMP st') /\
  vpd st' = vpd st ++ dots_from h n m0 (cntDrawnVP st) ts /\
  cntDrawnVP st' = cntDrawnVP st + length ts /\
  (ts <> [] -> n <> 0).
Proof.
  unfold species_loop. generalize (seq 0 numPopulations) as pis. intros pis.
  revert st. induction pis as [|pi pis IH]; intros st H S0; cbn [flat_map].
  - injection H as <-. unfold dots_from; simpl. rewrite app_nil_r.
    nil_case.
  - rewrite for_each_cons in H. apply bind_Ok in H as [st1 [H1 H]].
    destruct (pop_step_Ok _ _ _ _ _ H1 S0) as (S1 & V1 & C1 & N1).
    destruct (IH _ H S1) as (S2 & V2 & C2 & N2).
    split; [exact S2|]. rewrite dots_from_app, V2, V1, C2, C1, <- app_assoc.
    rewrite length_app.
    split; [reflexivity|]. split; [lia|].
    intros NE. destruct (map _ (filter _ rows)) eqn:E1.
    + apply N2. exact NE.
    + apply N1. congruence.
Qed.

Lemma layout_loop_Ok (rows : list lineData) (sis : list nat)
  (st st' : drawn) :
  for_each (species_loop h cT n rows) sis st = Ok st' ->
  same_shape m0 (d_vMP st) ->
  let ts := flat_map (fun si => flat_map (fun pi =>
              map (fun row => (si, pi, row))
                  (filter (present cT (2 + si * numPopulations + pi)) rows))
              (seq 0 numPopulations)) sis in
  same_shape m0 (d_vMP st') /\
  vpd st' = vpd st ++ dots_from h n m0 (cntDrawnVP st) ts /\
  cntDrawnVP st' = cntDrawnVP st + length ts /\
  (ts <> [] -> n <> 0).
Proof.
  revert st. induction sis as [|si sis IH]; intros st H S0; cbn [flat_map].
  - injection H as <-. unfold dots_from; simpl. rewrite app_nil_r.
    nil_case.
  - rewrite for_each_cons in H. apply bind_Ok in H as [st1 [H1 H]].
    destruct (species_loop_Ok _ _ _ _ H1 S0) as (S1 & V1 & C1 & N1).
    destruct (IH _ H S1) as (S2 & V2 & C2 & N2).
    split; [exact S2|]. rewrite dots_from_app, V2, V1, C2, C1, <- app_assoc.
    rewrite length_app.
    split; [reflexivity|]. split; [lia|].
    intros NE. destruct (flat_map _ (seq 0 numPopulations)) eqn:E1.
    + apply N2. exact NE.
    + apply N1. congruence.
Qed.

End Characterisation.

(** The dots of a chart are the expected dots of the traversal, slot by
    slot. *)
Lemma layout_Ok (h : R) (cT : list string) (n nS : nat)
  (rows : list lineData) (m : vmp_obj) (D : drawn) :
  layout h cT n nS rows m = Ok D ->
  vpd D = dots_from h n m 0 (traversal cT nS rows) /\
  cntDrawnVP D = length (traversal cT nS rows) /\
  same_shape m (d_vMP D) /\
  (traversal cT nS rows <> [] -> n <> 0).
Proof.
  unfold layout. intros H.
  destruct (layout_loop_Ok h cT n m rows _ _ _ H (same_shape_refl _))
    as (S & V & C & N).
  simpl in *. unfold traversal. auto.
Qed.

(** ** The loader *)

Section Loader.
Variable cT : list string.

Lemma line_step_short (st : loaded) (li : nat) (line : string) :
  length (JS.split "," line) < length cT ->
  line_step cT st (li, line) = st.
Proof.
  intros H. unfold line_step. simpl.
  apply Nat.ltb_lt in H. now rewrite H.
Qed.

Lemma line_step_long (st : loaded) (li : nat) (line : string) :
  length cT <= length (JS.split "," line) ->
  csvData (line_step cT st (li, line))
  = csvData st ++ [ra_line (parse_row cT (JS.split "," line))]
  /\ numVP (line_step cT st (li, line))
     = numVP st + ra_cnt (parse_row cT (JS.split "," line)).
Proof.
  intros H. unfold line_step. simpl.
  apply Nat.ltb_ge in H. rewrite H. simpl. auto.
Qed.

Lemma fold_line_step (ls : list (nat * string)) (st : loaded) :
  let rows := kept cT (map snd ls) in
  let st' := fold_left (line_step cT) ls st in
  csvData st' = csvData st ++ map (fun items => ra_line (parse_row cT items)) rows
  /\ numVP st' = numVP st
                 + list_sum (map (fun items => ra_cnt (parse_row cT items)) rows).
Proof.
  revert st. induction ls as [|[li line] ls IH]; intros st; simpl.
  - rewrite app_nil_r. split; auto.
  - specialize (IH (line_step cT st (li, line))). simpl in IH.
    destruct IH as [IH1 IH2]. unfold kept in *. simpl.
    destruct (length (JS.split "," line) <? length cT) eqn:E; simpl.
    + apply Nat.ltb_lt in E.
      rewrite (line_step_short st li line E) in *. auto.
    + apply Nat.ltb_ge in E.
      destruct (line_step_long st li line E) as [L1 L2].
      rewrite IH1, IH2, L1, L2, <- app_assoc. simpl. split; auto. lia.
Qed.

(** The counters of a line. *)
Lemma fold_cell_step_cnt (tcs : list (string * string)) (acc : row_acc) :
  ra_cnt (fold_left cell_step tcs acc)
  = ra_cnt acc + length (filter (fun tc => is_one (snd tc)) tcs).
Proof.
  revert acc. induction tcs as [|tc tcs IH]; intros acc; simpl.
  - lia.
  - rewrite IH. unfold cell_step, is_one.
    destruct (String.eqb (JS.strip_ws (snd tc)) "1"); simpl; lia.
Qed.

Lemma parse_row_cnt (items : list string) :
  ra_cnt (parse_row cT items) = count_ones cT items.
Proof. unfold parse_row, count_ones, cells. now rewrite fold_cell_step_cnt. Qed.

End Loader.

Lemma snd_combine_seq {A : Type} (l : list A) (k : nat) :
  map snd (combine (seq k (length l)) l) = l.
Proof.
  revert k; induction l as [|a l IH]; intros k; simpl; auto.
  now rewrite IH.
Qed.

Lemma length_skipn_1 {A : Type} (l : list A) :
  length (skipn 1 l) = length l - 1.
Proof. destruct l; simpl; lia. Qed.

Lemma parse_rows (data : string) :
  csvData (parse data)
  = map (fun items => ra_line (parse_row (colTitle data) items))
        (data_rows data)
  /\ numVP (parse data)
     = list_sum (map (count_ones (colTitle data)) (data_rows data)).
Proof.
  unfold parse, data_rows, colTitle. cbv zeta.
  rewrite <- length_skipn_1.
  pose proof (fold_line_step (colTitle_of (header_of data))
    (combine (seq 1 (length (skipn 1 (lines_of data))))
             (skipn 1 (lines_of data)))
    (mkLoaded [] 0 (mkVmpObj [] None))) as H.
  cbv zeta in H. rewrite snd_combine_seq in H.
  destruct H as [H1 H2]. rewrite H1, H2. split; auto.
  cbn [numVP Nat.add]. f_equal. apply map_ext. intros. apply parse_row_cnt.
Qed.

(** ** Reading back the cells of a line *)

Lemma includes_In (l : list string) (x : string) :
  JS.includes l x = true <-> In x l.
Proof.
  unfold JS.includes. rewrite existsb_exists. split.
  - intros [y [Hy E]]. apply String.eqb_eq in E. now subst.
  - intros H. exists x. split; auto. apply String.eqb_refl.
Qed.

Lemma includes_false (l : list string) (x : string) :
  JS.includes l x = false <-> ~ In x l.
Proof.
  rewrite <- includes_In. destruct (JS.includes l x); split; congruence.
Qed.

Lemma nodupb_NoDup (l : list string) : nodupb l = true <-> NoDup l.
Proof.
  induction l as [|a l IH]; simpl.
  - split; auto using NoDup_nil.
  - rewrite andb_true_iff, negb_true_iff, includes_false, IH. split.
    + intros [H1 H2]. now constructor.
    + intros H. inversion H; auto.
Qed.

Lemma ra_line_cell_step (acc : row_acc) (tc : string * string) :
  ra_line (cell_step acc tc)
  = ld_set (fst tc) (JS.strip_ws (snd tc)) (ra_line acc).
Proof. unfold cell_step. destruct (String.eqb _ "1"); reflexivity. Qed.

Lemma get_fold_notin (tcs : list (string * string)) (acc : row_acc)
  (k : string) :
  ~ In k (map fst tcs) ->
  Obj.get k (ra_line (fold_left cell_step tcs acc)) = Obj.get k (ra_line acc).
Proof.
  revert acc. induction tcs as [|tc tcs IH]; intros acc H; simpl; auto.
  rewrite IH by (intros H1; apply H; now right).
  rewrite ra_line_cell_step. unfold ld_set.
  destruct (String.eqb (fst tc) "__proto__"); auto.
  rewrite get_set. destruct (String.eqb (fst tc) k) eqn:E; auto.
  apply String.eqb_eq in E. exfalso. apply H. now left.
Qed.

Lemma get_fold_in (tcs : list (string * string)) (acc : row_acc)
  (t c : string) :
  NoDup (map fst tcs) -> In (t, c) tcs -> t <> "__proto__" ->
  ld_get t (ra_line (fold_left cell_step tcs acc)) = Some (JS.strip_ws c).
Proof.
  revert acc. induction tcs as [|tc tcs IH]; intros acc ND HIn NP; simpl.
  - destruct HIn.
  - inversion ND as [|? ? Hn ND']; subst. destruct HIn as [->|HIn].
    + unfold ld_get. apply String.eqb_neq in NP. rewrite NP.
      rewrite get_fold_notin by exact Hn.
      rewrite ra_line_cell_step. unfold ld_set. simpl. rewrite NP.
      rewrite get_set. now rewrite String.eqb_refl.
    + now apply IH.
Qed.

Lemma In_combine_nth (cT items : list string) (ci : nat) (t : string) :
  nth_error cT ci = Some t -> length cT <= length items ->
  exists c, nth_error items ci = Some c /\ In (t, c) (combine cT items).
Proof.
  revert items ci. induction cT as [|a cT IH]; intros items ci H L.
  - destruct ci; discriminate.
  - destruct items as [|b items]; simpl in L; [lia|].
    destruct ci as [|ci]; simpl in *.
    + injection H as <-. eauto.
    + destruct (IH items ci H) as [c [Hc HIn]]; [lia|]. eauto.
Qed.

Lemma fst_combine (cT items : list string) :
  length cT <= length items -> map fst (combine cT items) = cT.
Proof.
  revert items. induction cT as [|a cT IH]; intros items L; simpl; auto.
  destruct items; simpl in *; [lia|]. f_equal. apply IH. lia.
Qed.

(** With different titles, the line gives back each cell, stripped. *)
Lemma parse_row_get (cT items : list string) (ci : nat) (t : string) :
  NoDup cT -> ~ In "__proto__" cT -> length cT <= length items ->
  nth_error cT ci = Some t ->
  ld_get t (ra_line (parse_row cT items))
  = option_map JS.strip_ws (nth_error items ci).
Proof.
  intros ND NP L H.
  destruct (In_combine_nth _ _ _ _ H L) as [c [Hc HIn]].
  rewrite Hc. simpl. unfold parse_row. apply get_fold_in; auto.
  - now rewrite fst_combine.
  - intros ->. apply NP. eapply nth_error_In; eauto.
Qed.

(** ** Counting by lines and by columns *)

Lemma list_sum_add {X : Type} (f g : X -> nat) (l : list X) :
  list_sum (map (fun x => f x + g x) l)
  = list_sum (map f l) + list_sum (map g l).
Proof. induction l as [|x l IH]; simpl; auto. rewrite IH. lia. Qed.

Lemma length_filter_sum {X : Type} (p : X -> bool) (l : list X) :
  length (filter p l) = list_sum (map (fun x => if p x then 1 else 0) l).
Proof.
  induction l as [|x l IH]; simpl; auto.
  destruct (p x); simpl; now rewrite IH.
Qed.

Lemma sum_exchange {X Y : Type} (p : X -> Y -> bool) (xs : list X)
  (ys : list Y) :
  list_sum (map (fun x => length (filter (p x) ys)) xs)
  = list_sum (map (fun y => length (filter (fun x => p x y) xs)) ys).
Proof.
  induction xs as [|x xs IH]; simpl.
  - induction ys; simpl; auto.
  - rewrite IH. rewrite (length_filter_sum (p x) ys).
    rewrite <- list_sum_add. f_equal. apply map_ext. intros y.
    destruct (p x y); simpl; lia.
Qed.

Lemma list_sum_ext_in {X : Type} (f g : X -> nat) (l : list X) :
  (forall x, In x l -> f x = g x) ->
  list_sum (map f l) = list_sum (map g l).
Proof. intros H. f_equal. now apply map_ext_in. Qed.

Lemma length_filter_map {X Y : Type} (g : X -> Y) (p : Y -> bool)
  (l : list X) :
  length (filter p (map g l)) = length (filter (fun x => p (g x)) l).
Proof.
  induction l as [|x l IH]; simpl; auto.
  destruct (p (g x)); simpl; now rewrite IH.
Qed.

Lemma length_filter_ext_in {X : Type} (p q : X -> bool) (l : list X) :
  (forall x, In x l -> p x = q x) ->
  length (filter p l) = length (filter q l).
Proof. intros H. f_equal. now apply filter_ext_in. Qed.

Lemma visited_seq (nS : nat) : visited nS = seq 2 (numPopulations * nS).
Proof.
  unfold visited. induction nS as [|nS IH].
  - reflexivity.
  - rewrite seq_S, flat_map_app, IH. cbn [flat_map]. rewrite app_nil_r.
    replace (numPopulations * S nS) with (numPopulations * nS + numPopulations)
      by lia.
    rewrite seq_app. f_equal. unfold numPopulations. cbn [seq map].
    f_equal; [lia|]. f_equal; [lia|]. f_equal; lia.
Qed.

Lemma length_traversal (cT : list string) (nS : nat) (rows : list lineData) :
  length (traversal cT nS rows)
  = list_sum (map (fun ci => length (filter (present cT ci) rows))
                  (visited nS)).
Proof.
  unfold traversal, visited. induction (seq 0 nS) as [|si sis IH].
  - reflexivity.
  - cbn [flat_map]. rewrite length_app, map_app, list_sum_app, IH.
    apply (f_equal (fun x => x + _)).
    generalize (seq 0 numPopulations) as pis.
    induction pis as [|pi pis IHp]; [reflexivity|].
    cbn [flat_map map list_sum]. rewrite length_app, length_map, IHp.
    reflexivity.
Qed.

Lemma in_combine_seq (items : list string) (k n ci : nat) :
  ci < n -> n <= length items ->
  In (k + ci, nth ci items "") (combine (seq k n) items).
Proof.
  revert items k ci. induction n as [|n IH]; intros items k ci H L; [lia|].
  destruct items as [|c items]; simpl in L; [lia|].
  destruct ci as [|ci]; simpl.
  - left. f_equal. lia.
  - right. replace (k + S ci) with (S k + ci) by lia. apply IH; lia.
Qed.

Lemma count_ones_seq (cT items : list string) :
  length cT <= length items ->
  count_ones cT items
  = length (filter (fun ci => is_one (nth ci items "")) (seq 0 (length cT))).
Proof.
  unfold count_ones, cells. revert items.
  induction cT as [|t cT IH]; intros items L; [reflexivity|].
  destruct items as [|c items]; simpl in L; [lia|].
  assert (E : length (filter (fun ci => is_one (nth ci (c :: items) ""))
                             (map S (seq 0 (length cT))))
              = length (filter (fun tc => is_one (snd tc)) (combine cT items))).
  { rewrite length_filter_map. cbn [nth]. symmetry. apply IH. lia. }
  change (seq 0 (length (t :: cT))) with (0 :: seq 1 (length cT)).
  rewrite <- seq_shift.
  change (combine (t :: cT) (c :: items)) with ((t, c) :: combine cT items).
  cbn [filter]. change (nth 0 (c :: items) "") with c. cbn [snd].
  destruct (is_one c); cbn [length]; now rewrite E.
Qed.

(** ** Well-formed input: as many dots as presences *)

Lemma kept_long (cT : list string) (lines : list string) (items : list string) :
  In items (kept cT lines) -> length cT <= length items.
Proof.
  unfold kept. rewrite filter_In. intros [_ H].
  apply negb_true_iff, Nat.ltb_ge in H. exact H.
Qed.

Lemma cell_ok_at (cT items : list string) (ci : nat) :
  row_ok cT items = true -> length cT <= length items -> ci < length cT ->
  cell_ok ci (nth ci items "") = true.
Proof.
  unfold row_ok. rewrite !andb_true_iff. intros [[H _] _] L C.
  rewrite forallb_forall in H.
  apply (H (ci, nth ci items "")).
  apply (in_combine_seq items 0 (length cT) ci); auto.
Qed.

Lemma nth_error_nth_str (l : list string) (ci : nat) :
  ci < length l -> nth_error l ci = Some (nth ci l "").
Proof. intros H. now apply nth_error_nth'. Qed.

Lemma parseInt_one : JS.parseInt_is_zero "1" = false.
Proof. reflexivity. Qed.

Section Valid.
Variable data : string.
Hypothesis V : valid_csv data = true.

Let cT := colTitle data.
Let nS := length (aSpNames data).

Lemma valid_length : length cT = 2 + numPopulations * nS.
Proof.
  unfold valid_csv in V. rewrite !andb_true_iff in V.
  destruct V as [[[H _] _] _]. now apply Nat.eqb_eq in H.
Qed.

Lemma valid_NoDup : NoDup cT.
Proof.
  unfold valid_csv in V. rewrite !andb_true_iff in V.
  destruct V as [[[_ H] _] _]. now apply nodupb_NoDup.
Qed.

Lemma valid_no_proto : ~ In "__proto__" cT.
Proof.
  unfold valid_csv in V. rewrite !andb_true_iff in V.
  destruct V as [[_ H] _]. apply negb_true_iff in H.
  now apply includes_false.
Qed.

Lemma valid_rows (items : list string) :
  In items (data_rows data) ->
  row_ok cT items = true /\ length cT <= length items.
Proof.
  intros H. split.
  - unfold valid_csv in V. rewrite !andb_true_iff in V.
    destruct V as [_ R]. rewrite forallb_forall in R. now apply R.
  - eapply kept_long. exact H.
Qed.

Lemma present_valid (items : list string) (ci : nat) :
  In items (data_rows data) -> 2 <= ci < length cT ->
  present cT ci (ra_line (parse_row cT items)) = is_one (nth ci items "").
Proof.
  intros H [C2 C]. destruct (valid_rows _ H) as [R L].
  pose proof (cell_ok_at _ _ ci R L C) as K.
  unfold present. rewrite (nth_error_nth_str cT ci C). simpl.
  rewrite (parse_row_get cT items ci (nth ci cT ""));
    auto using valid_NoDup, valid_no_proto, nth_error_nth_str.
  rewrite (nth_error_nth_str items ci) by lia. simpl.
  unfold cell_ok in K. apply Nat.ltb_ge in C2. rewrite C2 in K.
  unfold JS.parseInt_eq0. simpl. unfold is_one in *.
  destruct (String.eqb (JS.strip_ws (nth ci items "")) "1") eqn:E.
  - apply String.eqb_eq in E. rewrite E. reflexivity.
  - simpl in K. now rewrite K.
Qed.

Lemma first_columns (items : list string) (ci : nat) :
  In items (data_rows data) -> ci < 2 ->
  is_one (nth ci items "") = false.
Proof.
  intros H C. destruct (valid_rows _ H) as [R L].
  assert (C' : ci < length cT) by (rewrite valid_length; lia).
  pose proof (cell_ok_at _ _ ci R L C') as K.
  unfold cell_ok in K. apply Nat.ltb_lt in C. rewrite C in K.
  now apply negb_true_iff in K.
Qed.

(** The layout draws as many dots as the loader has counted presences. *)
Lemma valid_count :
  length (traversal cT nS (csvData (parse data))) = numVP (parse data).
Proof.
  destruct (parse_rows data) as [-> ->]. fold cT.
  rewrite length_traversal, visited_seq.
  rewrite (list_sum_ext_in _
    (fun ci => length (filter (fun items => is_one (nth ci items ""))
                              (data_rows data)))).
  2:{ intros ci Hci. apply in_seq in Hci. rewrite length_filter_map.
      apply length_filter_ext_in. intros items Hi.
      apply present_valid; auto. rewrite valid_length. lia. }
  rewrite (list_sum_ext_in (count_ones cT)
    (fun items => length (filter (fun ci => is_one (nth ci items ""))
                                 (seq 0 (length cT))))).
  2:{ intros items Hi. apply count_ones_seq. now apply valid_rows. }
  rewrite (sum_exchange (fun items ci => is_one (nth ci items ""))).
  rewrite valid_length. change (2 + numPopulations * nS)
    with (S (S (numPopulations * nS))).
  cbn [seq map list_sum].
  assert (Z : forall ci, ci < 2 ->
            length (filter (fun items => is_one (nth ci items ""))
                           (data_rows data)) = 0).
  { intros ci C. rewrite (length_filter_ext_in _ (fun _ => false)).
    - induction (data_rows data); auto.
    - intros; apply first_columns; auto. }
  rewrite (Z 0), (Z 1) by lia. reflexivity.
Qed.

End Valid.

(** ** The order of [Object.keys] *)

Section Keys.
Context {A : Type}.

Lemma insert_index_perm (n : N) (k : string) (l : list (N * string)) :
  Permutation ((n, k) :: l) (Obj.insert_index n k l).
Proof.
  induction l as [|[m k'] l IH]; simpl; auto.
  destruct (n <? m)%N; auto.
  eapply perm_trans; [apply perm_swap|]. now apply perm_skip.
Qed.

Lemma index_keys_perm (o : Obj.t A) :
  Permutation (map snd (Obj.index_keys o))
              (filter (fun k => negb (Obj.is_name k)) (map fst o)).
Proof.
  induction o as [|[k v] o IH]; simpl; auto.
  unfold Obj.is_name at 1. destruct (JS.array_index k) as [n|]; simpl; auto.
  eapply perm_trans.
  - apply Permutation_map. apply Permutation_sym, insert_index_perm.
  - simpl. now apply perm_skip.
Qed.

Lemma filter_partition_perm (p : string -> bool) (l : list string) :
  Permutation (filter (fun k => negb (p k)) l ++ filter p l) l.
Proof.
  induction l as [|a l IH]; simpl; auto.
  destruct (p a); simpl.
  - eapply perm_trans; [apply Permutation_sym, Permutation_middle|].
    now apply perm_skip.
  - now apply perm_skip.
Qed.

Lemma keys_perm (o : Obj.t A) : Permutation (Obj.keys o) (map fst o).
Proof.
  unfold Obj.keys. eapply perm_trans; [|apply (filter_partition_perm Obj.is_name)].
  apply Permutation_app_tail. apply index_keys_perm.
Qed.

Lemma keys_In (o : Obj.t A) (k : string) :
  In k (Obj.keys o) <-> In k (map fst o).
Proof.
  split; apply Permutation_in; [|apply Permutation_sym]; apply keys_perm.
Qed.

Lemma keys_NoDup (o : Obj.t A) : NoDup (map fst o) -> NoDup (Obj.keys o).
Proof.
  intros H. eapply Permutation_NoDup; [apply Permutation_sym, keys_perm|auto].
Qed.

Lemma index_keys_ext (o o' : Obj.t A) :
  map fst o = map fst o' -> Obj.index_keys o = Obj.index_keys o'.
Proof.
  revert o'. induction o as [|[k v] o IH]; intros [|[k' v'] o'] H;
    try discriminate; auto.
  simpl in H. injection H as -> H. simpl. now rewrite (IH o' H).
Qed.

Lemma keys_ext (o o' : Obj.t A) :
  map fst o = map fst o' -> Obj.keys o = Obj.keys o'.
Proof.
  intros H. unfold Obj.keys. now rewrite (index_keys_ext _ _ H), H.
Qed.

Lemma set_NoDup (k : string) (v : A) (o : Obj.t A) :
  NoDup (map fst o) -> NoDup (map fst (Obj.set k v o)).
Proof.
  intros H. destruct (Obj.get k o) eqn:E.
  - rewrite keys_set_present; auto. congruence.
  - rewrite keys_set_absent; auto.
    apply NoDup_app; [auto|repeat constructor; intros []|].
    intros x Hx [<-|[]]. apply get_in_keys in Hx. congruence.
Qed.

End Keys.

(** ** The indentation loops *)

Lemma get_set_level (k k' : string) (lv : JS.jsint) (o : Obj.t vmp_entry) :
  Obj.get k' (set_level k lv o)
  = if String.eqb k k' then option_map (relevel lv) (Obj.get k o)
    else Obj.get k' o.
Proof.
  unfold set_level. destruct (Obj.get k o) as [e|] eqn:E.
  - rewrite get_set. destruct (String.eqb k k'); reflexivity.
  - destruct (String.eqb k k') eqn:E1; auto.
    apply String.eqb_eq in E1; subst. now rewrite E.
Qed.

Lemma keys_set_level (k : string) (lv : JS.jsint) (o : Obj.t vmp_entry) :
  map fst (set_level k lv o) = map fst o.
Proof.
  unfold set_level. destruct (Obj.get k o) eqn:E; auto.
  apply keys_set_present. congruence.
Qed.

Lemma species_set_level (k k' : string) (lv : JS.jsint)
  (o : Obj.t vmp_entry) :
  species_of (set_level k lv o) k' = species_of o k'.
Proof.
  unfold species_of. rewrite get_set_level.
  destruct (String.eqb k k') eqn:E; auto.
  apply String.eqb_eq in E; subst. now destruct (Obj.get k' o).
Qed.

Lemma level_set_level (k k' : string) (lv : JS.jsint)
  (o : Obj.t vmp_entry) :
  level_of (set_level k lv o) k'
  = if String.eqb k k' then option_map (fun _ => lv) (Obj.get k o)
    else level_of o k'.
Proof.
  unfold level_of. rewrite get_set_level.
  destruct (String.eqb k k'); auto. now destruct (Obj.get k o).
Qed.

Lemma same_species_refl (o : Obj.t vmp_entry) : same_species o o.
Proof. split; auto. Qed.

Lemma same_species_trans (o1 o2 o3 : Obj.t vmp_entry) :
  same_species o1 o2 -> same_species o2 o3 -> same_species o1 o3.
Proof.
  intros [K1 S1] [K2 S2]. split; [congruence|]. intros k. now rewrite S2, S1.
Qed.

Lemma same_species_set_level (k : string) (lv : JS.jsint)
  (o : Obj.t vmp_entry) : same_species o (set_level k lv o).
Proof.
  split; [apply keys_set_level|]. intros. apply species_set_level.
Qed.

Lemma single_in_species (aSp : string) (o o' : Obj.t vmp_entry)
  (k : string) :
  species_of o' k = species_of o k -> single_in aSp o' k = single_in aSp o k.
Proof.
  unfold species_of, single_in.
  destruct (Obj.get k o'), (Obj.get k o); simpl; intros H;
    try discriminate; auto.
  injection H as ->. reflexivity.
Qed.

Lemma crosses_species (o o' : Obj.t vmp_entry) (k : string) :
  species_of o' k = species_of o k -> crosses o' k = crosses o k.
Proof.
  unfold species_of, crosses.
  destruct (Obj.get k o'), (Obj.get k o); simpl; intros H;
    try discriminate; auto.
  injection H as ->. reflexivity.
Qed.

Lemma species_step_eq (aSp : string) (c : Z) (o : Obj.t vmp_entry)
  (k : string) :
  species_step aSp (c, o) k
  = if single_in aSp o k
    then ((c + 1)%Z, set_level k (JS.Int (c + 1)) o)
    else (c, o).
Proof.
  unfold species_step, single_in. simpl.
  destruct (Obj.get k o) as [e|]; auto.
  destruct (1 <? length (antSpecies e)); simpl; auto.
  destruct (JS.includes (antSpecies e) aSp); reflexivity.
Qed.

Lemma single_in_get (aSp : string) (o : Obj.t vmp_entry) (k : string) :
  single_in aSp o k = true -> Obj.get k o <> None.
Proof. unfold single_in. destruct (Obj.get k o); congruence. Qed.

(** The loop for one ant species, from counter [c]. *)
Lemma species_loop_levels (aSp : string) (ks : list string) (c : Z)
  (o : Obj.t vmp_entry) :
  let r := fold_left (species_step aSp) ks (c, o) in
  let q := filter (single_in aSp o) ks in
  same_species o (snd r)
  /\ fst r = (c + Z.of_nat (length q))%Z
  /\ (forall k, ~ In k q -> level_of (snd r) k = level_of o k)
  /\ (NoDup ks -> forall j k, nth_error q j = Some k ->
        level_of (snd r) k = Some (JS.Int (c + Z.of_nat j + 1))).
Proof.
  revert c o. induction ks as [|k0 ks IH]; intros c o; cbn zeta.
  - simpl. split; [apply same_species_refl|]. split; [lia|].
    split; [auto|]. intros _ [|j] k H; discriminate.
  - cbn [fold_left]. rewrite species_step_eq. cbn [filter].
    destruct (single_in aSp o k0) eqn:Q.
    + specialize (IH (c + 1)%Z (set_level k0 (JS.Int (c + 1)) o)).
      cbn zeta in IH. destruct IH as (S1 & C1 & D1 & E1).
      pose proof (same_species_set_level k0 (JS.Int (c + 1)) o) as S0.
      assert (F : filter (single_in aSp (set_level k0 (JS.Int (c + 1)) o)) ks
                  = filter (single_in aSp o) ks).
      { apply filter_ext. intros k. apply single_in_species, S0. }
      rewrite F in *. split; [eapply same_species_trans; eauto|].
      split; [rewrite C1; cbn [length]; lia|]. split.
      * intros k Hk. rewrite D1 by (intros H; apply Hk; now right).
        rewrite level_set_level. destruct (String.eqb k0 k) eqn:E; auto.
        apply String.eqb_eq in E. subst. exfalso. apply Hk. now left.
      * intros ND [|j] k Hj; inversion ND as [|? ? Hn ND']; subst.
        -- injection Hj as <-. rewrite D1.
           ++ rewrite level_set_level, String.eqb_refl.
              destruct (Obj.get k0 o) eqn:G; simpl.
              ** do 2 f_equal. lia.
              ** apply single_in_get in Q. congruence.
           ++ intros H. apply filter_In in H. tauto.
        -- cbn [nth_error] in Hj. rewrite (E1 ND' j k Hj).
           do 2 f_equal. lia.
    + specialize (IH c o). cbn zeta in IH. destruct IH as (S1 & C1 & D1 & E1).
      split; [exact S1|]. split; [exact C1|]. split; [exact D1|].
      intros ND. inversion ND; subst. auto.
Qed.

Lemma same_species_keys (o o' : Obj.t vmp_entry) :
  same_species o o' -> Obj.keys o' = Obj.keys o.
Proof. intros [K _]. now apply keys_ext. Qed.

Lemma same_species_single (aSp : string) (o o' : Obj.t vmp_entry) (k : string) :
  same_species o o' -> single_in aSp o' k = single_in aSp o k.
Proof. intros [_ S]. apply single_in_species, S. Qed.

Lemma same_species_crosses (o o' : Obj.t vmp_entry) (k : string) :
  same_species o o' -> crosses o' k = crosses o k.
Proof. intros [_ S]. apply crosses_species, S. Qed.

Lemma same_species_count (aSp : string) (o o' : Obj.t vmp_entry) :
  same_species o o' -> species_count o' aSp = species_count o aSp.
Proof.
  intros S. unfold species_count. rewrite (same_species_keys _ _ S).
  do 2 f_equal. apply filter_ext. intros k. now apply same_species_single.
Qed.

Lemma includes_singleton (l : list string) (a b : string) :
  (1 <? length l) = false -> JS.includes l a = true ->
  JS.includes l b = true -> a = b.
Proof.
  intros L A B. apply Nat.ltb_ge in L.
  destruct l as [|x [|y l]]; simpl in L; try lia.
  - discriminate.
  - apply includes_In in A, B. destruct A as [<-|[]], B as [<-|[]]. reflexivity.
Qed.

Lemma single_in_unique (a b : string) (o : Obj.t vmp_entry) (k : string) :
  single_in a o k = true -> single_in b o k = true -> a = b.
Proof.
  unfold single_in. destruct (Obj.get k o) as [e|]; try discriminate.
  rewrite !andb_true_iff, !negb_true_iff. intros [L A] [_ B].
  eapply includes_singleton; eauto.
Qed.

Lemma single_not_crosses (a : string) (o : Obj.t vmp_entry) (k : string) :
  single_in a o k = true -> crosses o k = false.
Proof.
  unfold single_in, crosses. destruct (Obj.get k o) as [e|]; auto.
  rewrite andb_true_iff, negb_true_iff. tauto.
Qed.

(** The loop over the ant species. *)
Lemma single_loop_levels (asps : list string) (cs : list Z)
  (o : Obj.t vmp_entry) :
  NoDup (map fst o) ->
  let r := fold_left single_step asps (cs, o) in
  same_species o (snd r)
  /\ fst r = cs ++ map (species_count o) asps
  /\ (forall k, (forall aSp, In aSp asps -> single_in aSp o k = false) ->
        level_of (snd r) k = level_of o k)
  /\ (NoDup asps -> forall aSp j k, In aSp asps ->
        nth_error (filter (single_in aSp o) (Obj.keys o)) j = Some k ->
        level_of (snd r) k = Some (JS.Int (Z.of_nat j + 1))).
Proof.
  revert cs o. induction asps as [|a asps IH]; intros cs o ND; cbn zeta.
  - simpl. rewrite app_nil_r. split; [apply same_species_refl|].
    split; [auto|]. split; [auto|]. intros _ aSp j k [].
  - destruct (species_loop_levels a (Obj.keys o) 0%Z o) as (S1 & C1 & D1 & E1).
    set (r1 := fold_left (species_step a) (Obj.keys o) (0%Z, o)) in *.
    change (fold_left single_step (a :: asps) (cs, o))
      with (fold_left single_step asps (cs ++ [fst r1], snd r1)).
    assert (ND1 : NoDup (map fst (snd r1))) by (destruct S1 as [K _]; now rewrite K).
    destruct (IH (cs ++ [fst r1]) (snd r1) ND1) as (S2 & C2 & D2 & E2).
    split; [eapply same_species_trans; eauto|]. split.
    { rewrite C2, <- app_assoc. f_equal. cbn [map app]. f_equal.
      - rewrite C1. unfold species_count. lia.
      - apply map_ext. intros x. now apply same_species_count. }
    split.
    { intros k Hk. rewrite D2.
      - apply D1. intros H. apply filter_In in H. destruct H as [_ H].
        rewrite Hk in H; [discriminate|now left].
      - intros aSp Ha. rewrite (same_species_single _ _ _ _ S1).
        apply Hk. now right. }
    intros NDa aSp j k Ha Hj. inversion NDa as [|? ? Hn NDa']; subst.
    destruct Ha as [<-|Ha].
    + rewrite D2.
      * now rewrite (E1 (keys_NoDup _ ND) j k Hj).
      * intros b Hb. rewrite (same_species_single _ _ _ _ S1).
        destruct (single_in b o k) eqn:B; auto.
        assert (Q : single_in a o k = true).
        { apply nth_error_In, filter_In in Hj. tauto. }
        rewrite (single_in_unique _ _ _ _ Q B) in Hn. contradiction.
    + apply (E2 NDa' aSp j k Ha).
      rewrite (same_species_keys _ _ S1).
      rewrite (filter_ext _ (single_in aSp o)); auto.
      intros x. now apply same_species_single.
Qed.

Lemma cross_step_eq (s : JS.jsint) (o : Obj.t vmp_entry) (k : string) :
  cross_step (s, o) k
  = if crosses o k
    then (JS.jsint_succ s, set_level k (JS.jsint_succ s) o)
    else (s, o).
Proof.
  unfold cross_step, crosses. simpl.
  destruct (Obj.get k o) as [e|]; auto.
Qed.

Lemma level_plus_succ (s : JS.jsint) (n : Z) :
  level_plus (JS.jsint_succ s) n = level_plus s (1 + n).
Proof.
  destruct s; cbn [level_plus JS.jsint_succ]; auto. f_equal. lia.
Qed.

Lemma level_plus_1 (s : JS.jsint) : JS.jsint_succ s = level_plus s 1.
Proof. destruct s; reflexivity. Qed.

(** The loop over the viruses across several species, from level [s]. *)
Lemma cross_loop_levels (ks : list string) (s : JS.jsint)
  (o : Obj.t vmp_entry) :
  let r := fold_left cross_step ks (s, o) in
  let q := filter (crosses o) ks in
  same_species o (snd r)
  /\ (forall k, ~ In k q -> level_of (snd r) k = level_of o k)
  /\ (NoDup ks -> forall j k, nth_error q j = Some k ->
        level_of (snd r) k = Some (level_plus s (Z.of_nat j + 1))).
Proof.
  revert s o. induction ks as [|k0 ks IH]; intros s o; cbn zeta.
  - simpl. split; [apply same_species_refl|].
    split; [auto|]. intros _ [|j] k H; discriminate.
  - cbn [fold_left]. rewrite cross_step_eq. cbn [filter].
    destruct (crosses o k0) eqn:Q.
    + specialize (IH (JS.jsint_succ s) (set_level k0 (JS.jsint_succ s) o)).
      cbn zeta in IH. destruct IH as (S1 & D1 & E1).
      pose proof (same_species_set_level k0 (JS.jsint_succ s) o) as S0.
      assert (F : filter (crosses (set_level k0 (JS.jsint_succ s) o)) ks
                  = filter (crosses o) ks).
      { apply filter_ext. intros k. now apply same_species_crosses. }
      rewrite F in *. split; [eapply same_species_trans; eauto|]. split.
      * intros k Hk. rewrite D1 by (intros H; apply Hk; now right).
        rewrite level_set_level. destruct (String.eqb k0 k) eqn:E; auto.
        apply String.eqb_eq in E. subst. exfalso. apply Hk. now left.
      * intros ND [|j] k Hj; inversion ND as [|? ? Hn ND']; subst.
        -- injection Hj as <-. rewrite D1.
           ++ rewrite level_set_level, String.eqb_refl.
              unfold crosses in Q. destruct (Obj.get k0 o); [|discriminate].
              reflexivity.
           ++ intros H. apply filter_In in H. tauto.
        -- cbn [nth_error] in Hj. rewrite (E1 ND' j k Hj).
           rewrite level_plus_succ. do 2 f_equal. lia.
    + specialize (IH s o). cbn zeta in IH. destruct IH as (S1 & D1 & E1).
      split; [exact S1|]. split; [exact D1|].
      intros ND. inversion ND; subst. auto.
Qed.

(** Both loops. *)
Lemma assign_indent_levels (asps : list string) (o : Obj.t vmp_entry) :
  NoDup (map fst o) ->
  let o' := assign_indent asps o in
  same_species o o'
  /\ (NoDup asps -> forall aSp j k, In aSp asps ->
        nth_error (filter (single_in aSp o) (Obj.keys o)) j = Some k ->
        level_of o' k = Some (JS.Int (Z.of_nat j + 1)))
  /\ (forall j k, nth_error (filter (crosses o) (Obj.keys o)) j = Some k ->
        level_of o' k
        = Some (level_plus (cross_start asps o) (Z.of_nat j + 1)))
  /\ (forall k, crosses o k = false ->
        (forall aSp, In aSp asps -> single_in aSp o k = false) ->
        level_of o' k = level_of o k).
Proof.
  intros ND. cbn zeta. unfold assign_indent, assign_single, assign_cross.
  destruct (single_loop_levels asps [] o ND) as (S1 & C1 & D1 & E1).
  set (r1 := fold_left single_step asps ([], o)) in *.
  destruct (cross_loop_levels (Obj.keys (snd r1))
              (JS.jsint_succ (JS.Math_max (fst r1))) (snd r1))
    as (S2 & D2 & E2).
  assert (F : filter (crosses (snd r1)) (Obj.keys (snd r1))
              = filter (crosses o) (Obj.keys o)).
  { rewrite (same_species_keys _ _ S1). apply filter_ext.
    intros k. now apply same_species_crosses. }
  rewrite F in *. simpl in C1.
  split; [eapply same_species_trans; eauto|]. split; [|split].
  - intros NDa aSp j k Ha Hj. rewrite D2.
    + eapply E1; eauto.
    + intros H. apply filter_In in H. destruct H as [_ H].
      apply nth_error_In, filter_In in Hj. destruct Hj as [_ Hj].
      apply single_not_crosses in Hj. congruence.
  - intros j k Hj. rewrite (E2 (keys_NoDup _ ltac:(destruct S1 as [K _]; now rewrite K)) j k Hj).
    unfold cross_start. now rewrite C1.
  - intros k Hc Hs. rewrite D2.
    + now apply D1.
    + intros H. apply filter_In in H. destruct H as [_ H]. congruence.
Qed.

(** ** What the loader stores in [vMP] *)

Lemma push_new_NoDup (l : list string) (x : string) :
  NoDup l -> NoDup (push_new l x).
Proof.
  intros H. unfold push_new. destruct (JS.includes l x) eqn:E; auto.
  apply includes_false in E.
  apply NoDup_app; [auto|repeat constructor; intros []|].
  intros y Hy [<-|[]]. contradiction.
Qed.

Lemma aSpNames_NoDup (data : string) : NoDup (aSpNames data).
Proof.
  unfold aSpNames, aSpNames_of.
  generalize (skipn 2 (colTitle data)) as l.
  assert (G : forall l acc, NoDup acc ->
            NoDup (fold_left (fun acc t => push_new acc (aSpName_of t)) l acc)).
  { induction l as [|t l IH]; intros acc H; simpl; auto.
    apply IH. now apply push_new_NoDup. }
  intros l. apply G. constructor.
Qed.

Lemma vmp_read_set (k k0 : string) (e : vmp_entry) (m : vmp_obj) :
  vmp_read k (vmp_set k0 e m) = if String.eqb k0 k then Some e
                                else vmp_read k m.
Proof.
  unfold vmp_read, vmp_set.
  destruct (String.eqb k0 k) eqn:E1.
  - apply String.eqb_eq in E1; subst k0.
    destruct (String.eqb k "__proto__"); simpl; auto.
    now rewrite get_set, String.eqb_refl.
  - destruct (String.eqb k0 "__proto__") eqn:E0;
      destruct (String.eqb k "__proto__") eqn:E; simpl; auto.
    + apply String.eqb_eq in E0, E. subst. now rewrite String.eqb_refl in E1.
    + now rewrite get_set, E1.
Qed.

Lemma vmp_set_NoDup (k : string) (e : vmp_entry) (m : vmp_obj) :
  NoDup (map fst (own m)) -> NoDup (map fst (own (vmp_set k e m))).
Proof.
  unfold vmp_set. destruct (String.eqb k "__proto__"); simpl; auto.
  apply set_NoDup.
Qed.

Section Stored.
Variable cT : list string.

Lemma line_step_vMP (st : loaded) (li : nat) (line : string) :
  length cT <= length (JS.split "," line) ->
  vMP (line_step cT st (li, line))
  = let items := JS.split "," line in
    if 1 <? count_ones cT items
    then vmp_set (row_key cT items)
                 (mkVmp (JS.Int 0) (count_ones cT items)
                        (ra_species (parse_row cT items)) [] (li - 1))
                 (vMP st)
    else vMP st.
Proof.
  intros H. unfold line_step. simpl.
  apply Nat.ltb_ge in H. rewrite H. simpl. now rewrite parse_row_cnt.
Qed.

Lemma stores_step (rows : list (list string)) (st : loaded) (li : nat)
  (line : string) :
  length cT <= length (JS.split "," line) ->
  stores cT rows (vMP st) ->
  stores cT (rows ++ [JS.split "," line]) (vMP (line_step cT st (li, line))).
Proof.
  intros L (ND & R & W). rewrite line_step_vMP by exact L. cbn zeta.
  set (items := JS.split "," line).
  destruct (1 <? count_ones cT items) eqn:C.
  - apply Nat.ltb_lt in C. split; [now apply vmp_set_NoDup|]. split.
    + intros k e. rewrite vmp_read_set.
      destruct (String.eqb (row_key cT items) k) eqn:E.
      * apply String.eqb_eq in E. intros H; injection H as <-.
        exists items. split; [apply in_or_app; right; now left|].
        split; [exact E|]. repeat split; auto.
      * intros H. destruct (R k e H) as [it [Hi Hs]].
        exists it. split; auto. apply in_or_app. now left.
    + intros it Hi Hc. rewrite vmp_read_set.
      destruct (String.eqb (row_key cT items) (row_key cT it)) eqn:E;
        [congruence|].
      apply in_app_or in Hi. destruct Hi as [Hi|[<-|[]]]; auto.
      now rewrite String.eqb_refl in E.
  - apply Nat.ltb_ge in C. split; [exact ND|]. split.
    + intros k e H. destruct (R k e H) as [it [Hi Hs]].
      exists it. split; auto. apply in_or_app. now left.
    + intros it Hi Hc. apply in_app_or in Hi.
      destruct Hi as [Hi|[<-|[]]]; auto. fold items in Hc. lia.
Qed.
End Stored.

Lemma stores_fold (cT : list string) (ls : list (nat * string))
  (rows : list (list string)) (st : loaded) :
  stores cT rows (vMP st) ->
  stores cT (rows ++ kept cT (map snd ls))
         (vMP (fold_left (line_step cT) ls st)).
Proof.
  revert rows st. induction ls as [|[li line] ls IH]; intros rows st H.
  - simpl. unfold kept. simpl. now rewrite app_nil_r.
  - cbn [fold_left map snd]. unfold kept in *. cbn [map filter].
    destruct (length (JS.split "," line) <? length cT) eqn:E; cbn [negb].
    + apply Nat.ltb_lt in E. rewrite line_step_short by exact E. now apply IH.
    + apply Nat.ltb_ge in E.
      replace (rows ++ JS.split "," line :: filter _ (map (JS.split ",") (map snd ls)))
        with ((rows ++ [JS.split "," line])
              ++ filter (fun items => negb (length items <? length cT))
                        (map (JS.split ",") (map snd ls)))
        by (now rewrite <- app_assoc).
      apply IH. now apply stores_step.
Qed.

(** Every entry of [vMP] comes from a kept line with several presences,
    and every such line has an entry under its key. *)
Lemma parse_stores (data : string) :
  stores (colTitle data) (data_rows data) (vMP (parse data)).
Proof.
  unfold parse, data_rows. cbv zeta. fold (colTitle data).
  rewrite <- length_skipn_1.
  pose proof (stores_fold (colTitle data)
    (combine (seq 1 (length (skipn 1 (lines_of data))))
             (skipn 1 (lines_of data)))
    [] (mkLoaded [] 0 (mkVmpObj [] None))) as H.
  rewrite snd_combine_seq in H. apply H.
  split; [constructor|]. split.
  - intros k e. unfold vmp_read. simpl.
    destruct (String.eqb k "__proto__"); discriminate.
  - intros items [].
Qed.

Lemma parse_NoDup (data : string) : NoDup (map fst (own (vMP (parse data)))).
Proof. apply parse_stores. Qed.

(** ** The levels of a loaded file *)

Lemma fold_max_spec (r : list Z) (x : Z) :
  let M := fold_left Z.max r x in
  In M (x :: r) /\ forall y, In y (x :: r) -> (y <= M)%Z.
Proof.
  revert x. induction r as [|a r IH]; intros x; cbn zeta.
  - simpl. split; [now left|]. intros y [<-|[]]. lia.
  - cbn [fold_left]. destruct (IH (Z.max x a)) as [I B]. split.
    + destruct I as [I|I]; [|right; now right].
      rewrite <- I. destruct (Z.max_spec x a) as [[_ ->]|[_ ->]];
        [right; now left|now left].
    + intros y [E|[E|Hy]].
      * specialize (B (Z.max x a) (or_introl eq_refl)). lia.
      * specialize (B (Z.max x a) (or_introl eq_refl)). lia.
      * apply B. now right.
Qed.

Lemma Math_max_spec (l : list Z) :
  l <> [] ->
  exists M, JS.Math_max l = JS.Int M /\ In M l /\ forall y, In y l -> (y <= M)%Z.
Proof.
  destruct l as [|x r]; [congruence|]. intros _.
  exists (fold_left Z.max r x). split; [reflexivity|]. apply fold_max_spec.
Qed.

Section Loaded.
Variable data : string.

Let o := own (vMP (parse data)).

Lemma vmap_eq : vmap data = assign_indent (aSpNames data) o.
Proof. reflexivity. Qed.

Lemma vmap_species : same_species o (vmap data).
Proof. apply (assign_indent_levels (aSpNames data) o), parse_NoDup. Qed.

Lemma singles_eq (aSp : string) :
  singles data aSp = filter (single_in aSp o) (Obj.keys o).
Proof.
  unfold singles. rewrite (same_species_keys _ _ vmap_species).
  apply filter_ext. intros k. apply same_species_single, vmap_species.
Qed.

Lemma crossers_eq : crossers data = filter (crosses o) (Obj.keys o).
Proof.
  unfold crossers. rewrite (same_species_keys _ _ vmap_species).
  apply filter_ext. intros k. apply same_species_crosses, vmap_species.
Qed.


Lemma cross_start_eq :
  cross_start (aSpNames data) o
  = JS.jsint_succ (JS.Math_max
      (map (fun aSp => Z.of_nat (length (singles data aSp))) (aSpNames data))).
Proof.
  unfold cross_start. do 2 f_equal. apply map_ext. intros a.
  unfold species_count. now rewrite singles_eq.
Qed.

Lemma single_level (aSp : string) (j : nat) (k : string) :
  In aSp (aSpNames data) -> nth_error (singles data aSp) j = Some k ->
  level_of (vmap data) k = Some (JS.Int (Z.of_nat j + 1)).
Proof.
  intros Ha Hj. rewrite singles_eq in Hj.
  destruct (assign_indent_levels (aSpNames data) o (parse_NoDup data))
    as (_ & E & _).
  eapply E; eauto. apply aSpNames_NoDup.
Qed.

Lemma cross_level (j : nat) (k : string) :
  nth_error (crossers data) j = Some k ->
  level_of (vmap data) k
  = Some (level_plus (JS.jsint_succ (JS.Math_max
      (map (fun aSp => Z.of_nat (length (singles data aSp))) (aSpNames data))))
      (Z.of_nat j + 1)).
Proof.
  intros Hj. rewrite crossers_eq in Hj.
  destruct (assign_indent_levels (aSpNames data) o (parse_NoDup data))
    as (_ & _ & E & _).
  rewrite vmap_eq, (E j k Hj). now rewrite cross_start_eq.
Qed.

End Loaded.

(** ** The ant species of a line *)

Lemma push_new_In (l : list string) (x y : string) :
  In x (push_new l y) <-> In x l \/ x = y.
Proof.
  unfold push_new. destruct (JS.includes l y) eqn:E.
  - apply includes_In in E. split; [auto|]. intros [H| ->]; auto.
  - rewrite in_app_iff. simpl. intuition.
Qed.

Lemma fold_species (tcs : list (string * string)) (acc : row_acc) :
  let r := ra_species (fold_left cell_step tcs acc) in
  (NoDup (ra_species acc) -> NoDup r)
  /\ forall x, In x r <->
       In x (ra_species acc)
       \/ In x (map aSpName_of
                  (map fst (filter (fun tc => is_one (snd tc)) tcs))).
Proof.
  revert acc. induction tcs as [|tc tcs IH]; intros acc; cbn zeta.
  - simpl. split; auto. intros x. tauto.
  - cbn [fold_left filter]. destruct (IH (cell_step acc tc)) as [N I].
    assert (R : ra_species (cell_step acc tc)
                = if is_one (snd tc)
                  then push_new (ra_species acc) (aSpName_of (fst tc))
                  else ra_species acc).
    { unfold cell_step, is_one. destruct (String.eqb _ "1"); reflexivity. }
    rewrite R in N, I. destruct (is_one (snd tc)).
    + split.
      * intros H. apply N. now apply push_new_NoDup.
      * intros x. rewrite I, push_new_In. cbn [map In fst]. intuition.
    + split; auto.
Qed.

Lemma ra_species_spec (cT items : list string) :
  NoDup (ra_species (parse_row cT items))
  /\ forall x, In x (ra_species (parse_row cT items))
               <-> In x (map aSpName_of (one_titles cT items)).
Proof.
  unfold parse_row, one_titles, cells.
  destruct (fold_species (combine cT items) (mkRow [] 0 [])) as [N I].
  split; [apply N; constructor|].
  intros x. rewrite I. simpl. tauto.
Qed.

Lemma count_ones_titles (cT items : list string) :
  count_ones cT items = length (map aSpName_of (one_titles cT items)).
Proof. unfold count_ones, one_titles. now rewrite !length_map. Qed.

Lemma two_species_length (cT items : list string) (a b : string) :
  in_two_species cT items a b ->
  length (ra_species (parse_row cT items)) = 2 /\ 1 < count_ones cT items.
Proof.
  intros [Hab H]. destruct (ra_species_spec cT items) as [N I].
  assert (N2 : NoDup [a; b]).
  { constructor; [intros [->|[]]; congruence|]. constructor; [intros []|constructor]. }
  split.
  - change 2 with (length [a; b]). apply Permutation_length.
    apply NoDup_Permutation; auto. intros x. rewrite I, H. simpl.
    intuition congruence.
  - rewrite count_ones_titles. change 1 with (pred (length [a; b])).
    apply Nat.lt_le_trans with (length [a; b]); [simpl; lia|].
    apply NoDup_incl_length; auto. intros x Hx. apply H.
    destruct Hx as [<-|[<-|[]]]; auto.
Qed.

(** ** Every level is an integer when there is an ant species *)

Lemma In_nth_error_str (l : list string) (k : string) :
  In k l -> exists j, nth_error l j = Some k.
Proof. apply In_nth_error. Qed.

Section Finite.
Variable data : string.
Hypothesis NE : aSpNames data <> [].

Let o := own (vMP (parse data)).

Lemma max_level_Int :
  exists M, JS.Math_max
      (map (fun aSp => Z.of_nat (length (singles data aSp))) (aSpNames data))
    = JS.Int M
    /\ (0 <= M)%Z
    /\ (forall aSp, In aSp (aSpNames data) ->
          (Z.of_nat (length (singles data aSp)) <= M)%Z)
    /\ exists aSp, In aSp (aSpNames data)
                   /\ Z.of_nat (length (singles data aSp)) = M.
Proof.
  destruct (Math_max_spec
    (map (fun aSp => Z.of_nat (length (singles data aSp))) (aSpNames data)))
    as (M & E & I & B).
  { destruct (aSpNames data); [congruence|discriminate]. }
  exists M. split; [exact E|]. apply in_map_iff in I. destruct I as (a & Ea & Ia).
  split; [lia|]. split.
  - intros aSp Ha. apply B. apply in_map_iff. eauto.
  - eauto.
Qed.

Lemma parse_level0 (k : string) (e : vmp_entry) :
  vmp_read k (vMP (parse data)) = Some e -> indentLevel e = JS.Int 0.
Proof.
  intros H. destruct (parse_stores data) as (_ & R & _).
  destruct (R k e H) as (items & _ & _ & S). apply S.
Qed.

Lemma levels_finite (k : string) (e : vmp_entry) :
  vmp_read k (vMP (load data)) = Some e ->
  exists z, indentLevel e = JS.Int z /\ (0 <= z)%Z.
Proof.
  unfold vmp_read. destruct (String.eqb k "__proto__") eqn:P.
  - simpl. intros H. exists 0%Z. split; [|lia].
    apply (parse_level0 "__proto__"). unfold vmp_read. now rewrite String.eqb_refl.
  - intros H. fold (vmap data) in H.
    assert (L : level_of (vmap data) k = Some (indentLevel e))
      by (unfold level_of; now rewrite H).
    assert (K : In k (Obj.keys (vmap data))).
    { apply keys_In, get_in_keys. congruence. }
    destruct (crosses (vmap data) k) eqn:C.
    + assert (I : In k (crossers data)) by (apply filter_In; auto).
      apply In_nth_error in I. destruct I as [j Hj].
      rewrite (cross_level data j k Hj) in L.
      destruct max_level_Int as (M & EM & M0 & _). rewrite EM in L.
      simpl in L.
      injection L as <-. eexists; split; [reflexivity|lia].
    + destruct (existsb (fun a => single_in a (vmap data) k) (aSpNames data))
        eqn:X.
      * apply existsb_exists in X. destruct X as (a & Ha & Sa).
        assert (I : In k (singles data a)) by (apply filter_In; auto).
        apply In_nth_error in I. destruct I as [j Hj].
        rewrite (single_level data a j k Ha Hj) in L.
        injection L as <-. eexists; split; [reflexivity|lia].
      * destruct (assign_indent_levels (aSpNames data) o (parse_NoDup data))
          as (_ & _ & _ & U).
        rewrite vmap_eq in L. rewrite U in L.
        -- unfold level_of in L. destruct (Obj.get k o) as [e0|] eqn:G;
             [|discriminate]. simpl in L. injection L as <-.
           exists 0%Z. split; [|lia]. apply (parse_level0 k).
           unfold vmp_read. now rewrite P.
        -- rewrite <- C. symmetry.
           apply same_species_crosses, vmap_species.
        -- intros a Ha.
           assert (Q : single_in a (vmap data) k = single_in a o k)
             by apply same_species_single, vmap_species.
           rewrite <- Q.
           destruct (single_in a (vmap data) k) eqn:Sa; auto.
           assert (existsb (fun a => single_in a (vmap data) k) (aSpNames data)
                   = true) by (apply existsb_exists; eauto).
           congruence.
Qed.

End Finite.

(** ** The layout of a well-formed file completes *)

Lemma for_each_progress {A S : Type} (body : S -> A -> result S)
  (Inv : S -> Prop) (P : A -> Prop) (l : list A) (s : S) :
  (forall s a, Inv s -> P a -> exists s', body s a = Ok s' /\ Inv s') ->
  Inv s -> Forall P l ->
  exists s', for_each body l s = Ok s' /\ Inv s'.
Proof.
  intros B. revert s. induction l as [|a l IH]; intros s I F.
  - exists s. auto.
  - inversion F as [|? ? Pa F']; subst. rewrite for_each_cons.
    destruct (B s a I Pa) as (s1 & E1 & I1). rewrite E1. simpl. now apply IH.
Qed.

Lemma legend_add_progress (vCl vSp : option string) (o : legend) :
  JS.includes JS.proto_names (JS.to_str vCl) = false ->
  exists o', legend_add vCl vSp o = Ok o'.
Proof.
  intros H. unfold legend_add, legend_in. rewrite H, orb_false_r.
  unfold Obj.has. destruct (Obj.get (JS.to_str vCl) o) eqn:G.
  - rewrite G. eauto.
  - rewrite get_set, String.eqb_refl. eauto.
Qed.

Section Progress.
Variables (h : R) (cT : list string) (n : nat) (m0 : vmp_obj).

Hypothesis finite : forall k e, vmp_read k m0 = Some e ->
  exists z, indentLevel e = JS.Int z.

Lemma vmp_in_read (m : vmp_obj) (key : string) :
  same_shape m0 m ->
  JS.includes (JS.proto_names ++ entry_fields) key = false ->
  vmp_in key m = true ->
  exists e z, vmp_read key m = Some e /\ indentLevel e = JS.Int z.
Proof.
  intros S N I. apply includes_false in N.
  assert (N1 : JS.includes JS.proto_names key = false).
  { apply includes_false. intros H. apply N, in_or_app. now left. }
  assert (N2 : JS.includes entry_fields key = false).
  { apply includes_false. intros H. apply N, in_or_app. now right. }
  unfold vmp_in in I. rewrite N1, N2, andb_false_r, !orb_false_r in I.
  assert (P : String.eqb key "__proto__" = false).
  { apply String.eqb_neq. intros ->. apply N, in_or_app. left.
    unfold JS.proto_names. simpl. tauto. }
  unfold Obj.has in I. destruct (Obj.get key (own m)) as [e|] eqn:G;
    [|discriminate].
  assert (R : vmp_read key m = Some e) by (unfold vmp_read; now rewrite P).
  pose proof (same_shape_read _ _ key S) as Q. rewrite R in Q. simpl in Q.
  destruct (vmp_read key m0) as [e0|] eqn:R0; [|discriminate].
  destruct (finite key e0 R0) as [z Hz].
  simpl in Q. injection Q as Q _. exists e, z. split; auto. congruence.
Qed.

Lemma dot_step_progress (si pi : nat) (st : drawn) (row : lineData) :
  same_shape m0 (d_vMP st) ->
  name_ok row ->
  (present cT (2 + si * numPopulations + pi) row = true -> n <> 0) ->
  exists st', dot_step h cT n si pi st row = Ok st'
              /\ same_shape m0 (d_vMP st').
Proof.
  intros Sh [N C] P.
  assert (G : exists st', dot_step h cT n si pi st row = Ok st').
  { unfold dot_step. unfold present in P.
    destruct (JS.parseInt_eq0 _); [eauto|].
    destruct n as [|n']; [now elim P|].
    fold (name_key row). fold (class_key row).
    assert (I : exists pm, indent_pos h (S n') (name_key row)
                  (INR (cntDrawnVP st) * vpDeg (S n') + 180)%R (d_vMP st)
                = Ok pm).
    { unfold indent_pos. destruct (vmp_in (name_key row) (d_vMP st)) eqn:I;
        [|eauto].
      destruct (vmp_in_read _ _ Sh N I) as (e & z & -> & ->). eauto. }
    destruct I as [[posX m1] I]. rewrite I. simpl.
    destruct (indent_pos_Ok _ _ _ _ _ _ _ I) as [_ S1].
    assert (S01 : same_shape m0 m1) by (eapply same_shape_trans; eauto).
    unfold cross_check. destruct (vmp_in (name_key row) m1) eqn:I1.
    - destruct (vmp_in_read _ _ S01 N I1) as (e & z & -> & _).
      destruct (legend_add_progress (ld_get "Classification" row)
                  (ld_get "Virus species" row) (tLeg st) C) as [leg ->].
      simpl. eauto.
    - destruct (legend_add_progress (ld_get "Classification" row)
                  (ld_get "Virus species" row) (tLeg st) C) as [leg ->].
      simpl. eauto. }
  destruct G as [st' G]. exists st'. split; auto.
  now destruct (dot_step_Ok h cT n m0 si pi st st' row G Sh).
Qed.

Lemma layout_progress (nS : nat) (rows : list lineData) :
  Forall name_ok rows ->
  (traversal cT nS rows <> [] -> n <> 0) ->
  exists D, layout h cT n nS rows m0 = Ok D.
Proof.
  intros F T. unfold layout.
  destruct (for_each_progress (species_loop h cT n rows)
              (fun st => same_shape m0 (d_vMP st))
              (fun si => In si (seq 0 nS)) (seq 0 nS) (mkDrawn 0 [] m0 []))
    as (D & E & _); eauto.
  - intros s si I Hsi. unfold species_loop.
    apply (for_each_progress (pop_step h cT n rows si)
             (fun st => same_shape m0 (d_vMP st))
             (fun pi => In pi (seq 0 numPopulations))); auto.
    + intros s1 pi I1 Hpi. unfold pop_step.
      apply (for_each_progress (dot_step h cT n si pi)
               (fun st => same_shape m0 (d_vMP st))
               (fun row => In row rows /\ name_ok row)); auto.
      * intros s2 row I2 [Hr Hn]. apply dot_step_progress; auto.
        intros Pr. apply T. intros Z.
        assert (X : In (si, pi, row) (traversal cT nS rows)).
        { unfold traversal. apply in_flat_map. exists si. split; auto.
          apply in_flat_map. exists pi. split; auto.
          apply in_map. apply filter_In. auto. }
        rewrite Z in X. destruct X.
      * rewrite Forall_forall in *. auto.
    + apply Forall_forall. auto.
  - simpl. apply same_shape_refl.
  - apply Forall_forall. auto.
Qed.

End Progress.

(** ** The chart of a file *)

Lemma length_dots_from (h : R) (n : nat) (m : vmp_obj) (k0 : nat)
  (ts : list (nat * nat * lineData)) :
  length (dots_from h n m k0 ts) = length ts.
Proof.
  unfold dots_from. rewrite length_map, length_combine, length_seq. lia.
Qed.

Lemma nth_dots_from (h : R) (n : nat) (m : vmp_obj) (k0 k : nat)
  (ts : list (nat * nat * lineData)) (d : Dot.t) :
  nth_error (dots_from h n m k0 ts) k = Some d ->
  exists t, nth_error ts k = Some t /\ d = expected_dot h n m (k0 + k) t.
Proof.
  unfold dots_from. revert k0 k. induction ts as [|t ts IH]; intros k0 k H.
  - destruct k; discriminate.
  - destruct k as [|k]; simpl in H.
    + injection H as <-. exists t. rewrite Nat.add_0_r. auto.
    + destruct (IH (S k0) k H) as (t' & Ht & ->). exists t'. split; auto.
      f_equal. lia.
Qed.

(** The dots of a chart, slot by slot. *)
Lemma chart_Ok (h : R) (data : string) (D : drawn) :
  chart h data = Ok D ->
  let ts := traversal (colTitle data) (length (aSpNames data))
                      (csvData (load data)) in
  vpd D = dots_from h (numVP (load data)) (vMP (load data)) 0 ts
  /\ same_shape (vMP (load data)) (d_vMP D)
  /\ (ts <> [] -> numVP (load data) <> 0).
Proof.
  unfold chart. intros H. apply layout_Ok in H. cbn zeta. tauto.
Qed.

Lemma valid_name_ok (data : string) :
  valid_csv data = true -> Forall name_ok (csvData (load data)).
Proof.
  intros V. simpl. destruct (parse_rows data) as [-> _].
  apply Forall_forall. intros row Hr. apply in_map_iff in Hr.
  destruct Hr as (items & <- & Hi).
  destruct (valid_rows data V items Hi) as [R _].
  unfold row_ok in R. rewrite !andb_true_iff, !negb_true_iff in R.
  destruct R as [[_ N] C]. split; auto.
Qed.

(** A well-formed file is drawn, with one dot for each presence. *)
Lemma chart_valid (h : R) (data : string) :
  valid_csv data = true ->
  exists D, chart h data = Ok D /\ length (vpd D) = numVP (load data).
Proof.
  intros V.
  assert (C : length (traversal (colTitle data) (length (aSpNames data))
                                (csvData (load data))) = numVP (load data))
    by apply (valid_count data V).
  assert (G : exists D, chart h data = Ok D).
  { unfold chart. destruct (aSpNames data) as [|a l] eqn:E.
    - unfold layout, for_each. simpl. eauto.
    - rewrite <- E. apply layout_progress.
      + intros k e Hk.
        destruct (levels_finite data ltac:(congruence) k e Hk) as (z & Hz & _).
        eauto.
      + exact (valid_name_ok data V).
      + intros T Z. rewrite <- E in C. rewrite Z in C. apply T.
        now apply length_zero_iff_nil. }
  destruct G as [D G]. exists D. split; auto.
  destruct (chart_Ok _ _ _ G) as (Vp & _). rewrite Vp, length_dots_from.
  exact C.
Qed.

(** ** The entry of a line *)

Lemma NoDup_map_inj {A B : Type} (f : A -> B) (l : list A) (x y : A) :
  NoDup (map f l) -> In x l -> In y l -> f x = f y -> x = y.
Proof.
  induction l as [|a l IH]; simpl; intros ND Hx Hy E; [destruct Hx|].
  inversion ND as [|? ? Hn ND']; subst.
  destruct Hx as [->|Hx], Hy as [->|Hy]; auto.
  - exfalso. apply Hn. rewrite E. now apply in_map.
  - exfalso. apply Hn. rewrite <- E. now apply in_map.
Qed.

Section Entries.
Variable data : string.
Hypothesis U : unique_keys data.

Let cT := colTitle data.

(** A line with several presences has its own entry after the loader. *)
Lemma parse_entry (items : list string) :
  In items (data_rows data) -> 1 < count_ones cT items ->
  exists e, vmp_read (row_key cT items) (vMP (parse data)) = Some e
            /\ stored cT items e.
Proof.
  intros Hi Hc. destruct (parse_stores data) as (_ & R & W).
  destruct (vmp_read (row_key cT items) (vMP (parse data))) as [e|] eqn:E.
  - exists e. split; auto. destruct (R _ _ E) as (it & Hit & Hk & S).
    now rewrite <- (NoDup_map_inj _ _ it items U Hit Hi Hk).
  - exfalso. now apply (W items Hi Hc).
Qed.

(** A line with at most one presence has none. *)
Lemma parse_no_entry (items : list string) :
  In items (data_rows data) -> count_ones cT items <= 1 ->
  vmp_read (row_key cT items) (vMP (parse data)) = None.
Proof.
  intros Hi Hc. destruct (parse_stores data) as (_ & R & _).
  destruct (vmp_read (row_key cT items) (vMP (parse data))) as [e|] eqn:E; auto.
  destruct (R _ _ E) as (it & Hit & Hk & S & _).
  rewrite (NoDup_map_inj _ _ it items U Hit Hi Hk) in S. fold cT in S. lia.
Qed.

End Entries.

(** The indentation assignment keeps the ant species of every entry. *)
Lemma load_read (data : string) (k : string) :
  option_map antSpecies (vmp_read k (vMP (load data)))
  = option_map antSpecies (vmp_read k (vMP (parse data))).
Proof.
  unfold vmp_read. destruct (String.eqb k "__proto__"); [reflexivity|].
  destruct (vmap_species data) as [_ S]. apply (S k).
Qed.

Lemma load_read_Some (data : string) (k : string) (e : vmp_entry) :
  vmp_read k (vMP (parse data)) = Some e ->
  exists e', vmp_read k (vMP (load data)) = Some e'
             /\ antSpecies e' = antSpecies e.
Proof.
  intros H. pose proof (load_read data k) as L. rewrite H in L.
  destruct (vmp_read k (vMP (load data))) as [e'|]; [|discriminate].
  simpl in L. injection L as L. eauto.
Qed.

Lemma load_read_None (data : string) (k : string) :
  vmp_read k (vMP (parse data)) = None ->
  vmp_read k (vMP (load data)) = None.
Proof.
  intros H. pose proof (load_read data k) as L. rewrite H in L.
  destruct (vmp_read k (vMP (load data))); [discriminate|auto].
Qed.

Lemma own_no_proto (cT : list string) (rows : list (list string))
  (m : vmp_obj) (k : string) (e : vmp_entry) :
  Obj.get k (own m) = Some e -> k <> "__proto__" ->
  vmp_read k m = Some e.
Proof.
  intros G N. unfold vmp_read. apply String.eqb_neq in N. now rewrite N.
Qed.

(** ** Rotation *)

Open Scope R_scope.

Lemma sin2_cos2' (r : R) : sin r * sin r + cos r * cos r = 1.
Proof. pose proof (sin2_cos2 r) as H. unfold Rsqr in H. exact H. Qed.

Lemma rot_pt_dist (pt c : R * R) (deg : R) :
  dist (rot_pt pt c deg) c = dist pt c.
Proof.
  unfold dist, rot_pt. cbn [fst snd]. f_equal.
  set (r := - deg * (PI / 180)). set (tx := fst pt - fst c).
  set (ty := snd pt - snd c).
  replace ((tx * cos r + ty * sin r + fst c - fst c)
           * (tx * cos r + ty * sin r + fst c - fst c)
           + (- tx * sin r + ty * cos r + snd c - snd c)
             * (- tx * sin r + ty * cos r + snd c - snd c))
    with ((tx * tx + ty * ty) * (sin r * sin r + cos r * cos r)) by ring.
  rewrite sin2_cos2'. ring.
Qed.

Lemma rot_pt_0 (pt c : R * R) : rot_pt pt c 0 = pt.
Proof.
  unfold rot_pt. replace (- 0 * (PI / 180)) with 0 by ring.
  rewrite cos_0, sin_0. destruct pt as [x y]. cbn [fst snd]. f_equal; ring.
Qed.

Lemma dist_on_axis (c : R * R) (rho : R) :
  dist (fst c + rho, snd c) c = Rabs rho.
Proof.
  unfold dist. cbn [fst snd].
  replace ((fst c + rho - fst c) * (fst c + rho - fst c)
           + (snd c - snd c) * (snd c - snd c)) with (Rsqr rho)
    by (unfold Rsqr; ring).
  apply sqrt_Rsqr_abs.
Qed.

Lemma dist_nonneg (p q : R * R) : 0 <= dist p q.
Proof. unfold dist. apply sqrt_pos. Qed.

(** The dots of a chart: position, from the computed radius. *)
Lemma expected_dot_dist (h : R) (n : nat) (m : vmp_obj) (k : nat)
  (t : nat * nat * lineData) :
  let d := expected_dot h n m k t in
  dist (Dot.x d, Dot.y d) (ct h)
  = Rabs (rho h n m (name_key (snd t))).
Proof.
  cbn zeta. unfold expected_dot. cbn [Dot.x Dot.y].
  rewrite <- surjective_pairing, rot_pt_dist. apply dist_on_axis.
Qed.

Lemma PI_gt_3 : 3 < PI.
Proof. pose proof PI2_3_2. unfold PI2 in *. lra. Qed.

Close Scope R_scope.

(** ** Slots *)




Lemma sample_valid : valid_csv sample_csv = true.
Proof. vm_compute. reflexivity. Qed.






(** A blank cell is not a presence for the loader, and is drawn by the
    layout. *)
Lemma blank_cells_are_drawn :
  exists D, chart 1000 blank_csv = Ok D
            /\ numVP (load blank_csv) = 1
            /\ length (vpd D) = 3.
Proof.
  eexists. split; [vm_compute; reflexivity|]. split; reflexivity.
Qed.






(** C9.  A data line with fewer comma-separated fields than there are
    column titles leaves the state of the loader as it is: nothing is added
    to [csvData], to [numVP] or to [vMP] (and the loader has no error
    outcome); a line with at least as many fields adds one record to
    [csvData] and its presences to [numVP].  Over a whole file, the
    records, the presence count and the entries of [vMP] are those of the
    kept lines. *)
Theorem C9_short_lines_are_skipped (data : string) (st : loaded) (li : nat)
  (line : string) :
  (length (JS.split "," line) < length (colTitle data) ->
     line_step (colTitle data) st (li, line) = st)
  /\ (length (colTitle data) <= length (JS.split "," line) ->
        csvData (line_step (colTitle data) st (li, line))
        = csvData st
          ++ [ra_line (parse_row (colTitle data) (JS.split "," line))]
        /\ numVP (line_step (colTitle data) st (li, line))
           = numVP st + count_ones (colTitle data) (JS.split "," line))
  /\ csvData (parse data)
     = map (fun items => ra_line (parse_row (colTitle data) items))
           (data_rows data)
  /\ numVP (parse data)
     = list_sum (map (count_ones (colTitle data)) (data_rows data))
  /\ stores (colTitle data) (data_rows data) (vMP (parse data))
  /\ (forall items, In items (data_rows data) <->
        In items (map (JS.split ",") (skipn 1 (lines_of data)))
        /\ length (colTitle data) <= length items).
Proof.
  split; [apply line_step_short|]. split.
  { intros L. destruct (line_step_long (colTitle data) st li line L) as [A B].
    split; [exact A|]. now rewrite B, parse_row_cnt. }
  destruct (parse_rows data) as [A B].
  split; [exact A|]. split; [exact B|]. split; [apply parse_stores|].
  intros items. unfold data_rows, kept. rewrite filter_In, negb_true_iff.
  now rewrite Nat.ltb_ge.
Qed.

Lemma C9_witness :
  line_step (colTitle sample_csv) (parse sample_csv) (5, "short,1")
  = parse sample_csv
  /\ length (csvData (line_step (colTitle sample_csv)
                                (mkLoaded [] 0 (mkVmpObj [] None))
                                (1, "V1,C1,1,1,0,0,0,0"))) = 1.
Proof.
  destruct (C9_short_lines_are_skipped sample_csv (parse sample_csv) 5
              "short,1") as (S & _).
  destruct (C9_short_lines_are_skipped sample_csv
              (mkLoaded [] 0 (mkVmpObj [] None)) 1 "V1,C1,1,1,0,0,0,0")
    as (_ & L & _).
  split.
  - apply S. vm_compute. lia.
  - destruct L as [L _]; [vm_compute; lia|]. rewrite L. reflexivity.
Defined.

Open Scope R_scope.

(** C10 (as amended).  [rot_pt] keeps the distance to the centre, and
    rotating by 0 degrees gives the point back; hence every dot of a chart
    lies at the absolute value of its computed radius ([radIC], or [radIC]
    less [vMPInd] times the indentation level of its virus) from the
    centre [ct], which is the computed radius whenever that is not
    negative. *)
Theorem C10_rot_pt_is_an_isometry (h : R) (data : string) (D : drawn)
  (d : Dot.t) (H : chart h data = Ok D) (Hd : In d (vpd D)) :
  (forall pt c deg, dist (rot_pt pt c deg) c = dist pt c)
  /\ (forall pt c, rot_pt pt c 0 = pt)
  /\ dist (Dot.x d, Dot.y d) (ct h)
     = Rabs (rho h (numVP (load data)) (vMP (load data))
                 (JS.to_str (Dot.vSp d)))
  /\ (0 <= rho h (numVP (load data)) (vMP (load data))
               (JS.to_str (Dot.vSp d)) ->
      dist (Dot.x d, Dot.y d) (ct h)
      = rho h (numVP (load data)) (vMP (load data)) (JS.to_str (Dot.vSp d))).
Proof.
  split; [apply rot_pt_dist|]. split; [apply rot_pt_0|].
  assert (E : dist (Dot.x d, Dot.y d) (ct h)
              = Rabs (rho h (numVP (load data)) (vMP (load data))
                          (JS.to_str (Dot.vSp d)))).
  { destruct (chart_Ok _ _ _ H) as (V & _). rewrite V in Hd.
    apply In_nth_error in Hd. destruct Hd as [k Hk].
    destruct (nth_dots_from _ _ _ _ _ _ _ Hk) as (t & _ & ->).
    apply expected_dot_dist. }
  split; [exact E|]. intros P. rewrite E. now apply Rabs_right, Rle_ge.
Qed.

Close Scope R_scope.

Lemma dots_from_vSp (h : R) (n : nat) (m : vmp_obj) (k0 : nat)
  (ts : list (nat * nat * lineData)) :
  map Dot.vSp (dots_from h n m k0 ts)
  = map (fun t => ld_get "Virus species" (snd t)) ts.
Proof.
  unfold dots_from. revert k0. induction ts as [|t ts IH]; intros k0; simpl;
    auto.
  now rewrite IH.
Qed.

Lemma chart_vSp (h : R) (data : string) (D : drawn) :
  chart h data = Ok D ->
  map Dot.vSp (vpd D)
  = map (fun t => ld_get "Virus species" (snd t))
        (traversal (colTitle data) (length (aSpNames data))
                   (csvData (load data))).
Proof.
  intros H. destruct (chart_Ok _ _ _ H) as (V & _). rewrite V.
  apply dots_from_vSp.
Qed.

Lemma rho_entry (h : R) (n : nat) (m : vmp_obj) (key : string) (z : Z) :
  vmp_in key m = true ->
  option_map indentLevel (vmp_read key m) = Some (JS.Int z) ->
  rho h n m key = (radIC h - vMPInd h n * IZR z)%R.
Proof.
  intros I L. unfold rho. rewrite I.
  destruct (vmp_read key m) as [e|]; [|discriminate].
  simpl in L. injection L as ->. reflexivity.
Qed.

Lemma rho_absent (h : R) (n : nat) (m : vmp_obj) (key : string) :
  vmp_read key m = None -> rho h n m key = radIC h.
Proof.
  intros N. unfold rho. rewrite N. now destruct (vmp_in key m).
Qed.

Lemma C10_witness :
  exists D d, chart 1000 sample_csv = Ok D /\ In d (vpd D)
    /\ dist (Dot.x d, Dot.y d) (ct 1000)
       = Rabs (rho 1000 (numVP (load sample_csv)) (vMP (load sample_csv))
                   (JS.to_str (Dot.vSp d))).
Proof.
  destruct (chart_valid 1000 sample_csv sample_valid) as (D & HD & L).
  destruct (vpd D) as [|d l] eqn:E; [discriminate|].
  exists D, d. split; [exact HD|].
  assert (Hd : In d (vpd D)) by (rewrite E; now left).
  split; [exact Hd|].
  apply (C10_rot_pt_is_an_isometry 1000 sample_csv D d HD Hd).
Defined.

(** C10 fails as stated: for one virus present in one population of each
    of two ant species, the indentation level is 2 and the computed radius
    [radIC - vMPInd * 2] is negative, so no dot lies at that distance. *)
Lemma C10_counterexample :
  exists D d, chart 1000 cross_csv = Ok D /\ In d (vpd D)
    /\ dist (Dot.x d, Dot.y d) (ct 1000)
       <> rho 1000 (numVP (load cross_csv)) (vMP (load cross_csv))
              (JS.to_str (Dot.vSp d)).
Proof.
  assert (V : valid_csv cross_csv = true) by (vm_compute; reflexivity).
  destruct (chart_valid 1000 cross_csv V) as (D & HD & L).
  destruct (vpd D) as [|d l] eqn:E; [discriminate|].
  exists D, d. split; [exact HD|].
  assert (Hd : In d (vpd D)) by (rewrite E; now left).
  split; [exact Hd|].
  assert (S : Dot.vSp d = Some "V1").
  { pose proof (chart_vSp _ _ _ HD) as M. rewrite E in M.
    vm_compute in M. now injection M. }
  rewrite S. cbn [JS.to_str].
  rewrite (rho_entry 1000 _ _ "V1" 2);
    [|vm_compute; reflexivity|vm_compute; reflexivity].
  assert (N : numVP (load cross_csv) = 2) by reflexivity. rewrite N.
  pose proof (dist_nonneg (Dot.x d, Dot.y d) (ct 1000)) as P.
  pose proof PI_gt_3 as Q.
  assert (R0 : (radIC 1000 - vMPInd 1000 2 * 2 < 0)%R).
  { unfold radIC, vMPInd, radVP, radIC, svgH. simpl INR. lra. }
  lra.
Qed.

(** ** The indentation levels of a file *)

Lemma cross_level_Int (data : string) (M : Z) (j : nat) (k : string) :
  JS.Math_max
    (map (fun aSp => Z.of_nat (length (singles data aSp))) (aSpNames data))
  = JS.Int M ->
  nth_error (crossers data) j = Some k ->
  level_of (vmap data) k = Some (JS.Int (M + 1 + (Z.of_nat j + 1))).
Proof.
  intros E Hj. rewrite (cross_level data j k Hj), E. reflexivity.
Qed.


Lemma sample_species : aSpNames sample_csv <> [].
Proof. vm_compute. discriminate. Qed.


(** C6.  When there is an ant species: every level that the loops assign
    (to a virus of one ant species of the header, or to a virus across
    several) is an integer of at least 1; every virus across several ant
    species has a level above that of every virus of a single one; and a
    kept line whose presences lie in columns of exactly two different ant
    species has (under its name, when no other kept line has that name)
    an entry of the mapping with two ant species, among the viruses
    across several. *)
Theorem C6_levels_positive_cross_deepest (data : string)
  (NE : aSpNames data <> []) :
  (forall k,
     In k (crossers data)
     \/ (exists aSp, In aSp (aSpNames data) /\ In k (singles data aSp)) ->
     exists z, level_of (vmap data) k = Some (JS.Int z) /\ (1 <= z)%Z)
  /\ (forall kc ks aSp,
        In kc (crossers data) -> In aSp (aSpNames data) ->
        In ks (singles data aSp) ->
        exists zc zs, level_of (vmap data) kc = Some (JS.Int zc)
                      /\ level_of (vmap data) ks = Some (JS.Int zs)
                      /\ (zs < zc)%Z)
  /\ (forall items a b,
        unique_keys data -> In items (data_rows data) ->
        in_two_species (colTitle data) items a b ->
        row_key (colTitle data) items <> "__proto__" ->
        exists e, Obj.get (row_key (colTitle data) items) (vmap data) = Some e
                  /\ length (antSpecies e) = 2
                  /\ In (row_key (colTitle data) items) (crossers data)).
Proof.
  destruct (max_level_Int data NE) as (M & E & M0 & B & _).
  split; [|split].
  - intros k [Hc|(aSp & Ha & Hs)].
    + apply In_nth_error in Hc. destruct Hc as [j Hj].
      rewrite (cross_level_Int data M j k E Hj).
      eexists. split; [reflexivity|lia].
    + apply In_nth_error in Hs. destruct Hs as [j Hj].
      rewrite (single_level data aSp j k Ha Hj).
      eexists. split; [reflexivity|lia].
  - intros kc ks aSp Hc Ha Hs.
    apply In_nth_error in Hc. destruct Hc as [jc Hjc].
    apply In_nth_error in Hs. destruct Hs as [js Hjs].
    rewrite (cross_level_Int data M jc kc E Hjc).
    rewrite (single_level data aSp js ks Ha Hjs).
    do 2 eexists. split; [reflexivity|]. split; [reflexivity|].
    assert (js < length (singles data aSp)).
    { apply nth_error_Some. congruence. }
    specialize (B aSp Ha). lia.
  - intros items a b U Hi T NP.
    destruct (two_species_length _ _ _ _ T) as [L C].
    destruct (parse_entry data U items Hi C) as (e0 & R0 & S0).
    destruct (load_read_Some data _ e0 R0) as (e & R & A).
    unfold vmp_read in R. apply String.eqb_neq in NP. rewrite NP in R.
    fold (vmap data) in R. exists e.
    assert (L2 : length (antSpecies e) = 2).
    { rewrite A. destruct S0 as (_ & _ & _ & -> & _). exact L. }
    split; [exact R|]. split; [exact L2|].
    apply filter_In. split.
    + apply keys_In, get_in_keys. congruence.
    + unfold crosses. rewrite R, L2. reflexivity.
Qed.

(** ** Radius and size of the dots *)

Lemma traversal_rows (cT : list string) (nS : nat) (rows : list lineData)
  (t : nat * nat * lineData) :
  In t (traversal cT nS rows) -> In (snd t) rows.
Proof.
  unfold traversal. rewrite in_flat_map. intros (si & _ & H).
  rewrite in_flat_map in H. destruct H as (pi & _ & H).
  apply in_map_iff in H. destruct H as (row & <- & H).
  apply filter_In in H. simpl. tauto.
Qed.

Lemma species_le_ones (cT items : list string) :
  length (ra_species (parse_row cT items)) <= count_ones cT items.
Proof.
  destruct (ra_species_spec cT items) as [N I].
  rewrite count_ones_titles. apply NoDup_incl_length; auto.
  intros x. apply I.
Qed.

Section Radius.
Variables (h : R) (data : string).
Hypothesis T : nth_error (colTitle data) 0 = Some "Virus species".
Hypothesis U : unique_keys data.

Let cT := colTitle data.
Let m := vMP (load data).
Let n := numVP (load data).

Lemma name_key_row (items : list string) :
  name_key (ra_line (parse_row cT items)) = row_key cT items.
Proof. unfold name_key, row_key. subst cT. now rewrite T. Qed.

Lemma multi_in (items : list string) (e : vmp_entry) :
  vmp_read (row_key cT items) m = Some e ->
  vmp_in (row_key cT items) m = true.
Proof.
  unfold vmp_read, vmp_in. intros R.
  destruct (String.eqb (row_key cT items) "__proto__") eqn:P.
  - apply String.eqb_eq in P. rewrite P. simpl. now rewrite orb_true_r.
  - unfold Obj.has. now rewrite R.
Qed.

Lemma rho_radius (items : list string) :
  In items (data_rows data) ->
  rho h n m (row_key cT items) = radius_of h data items.
Proof.
  intros Hi. unfold radius_of. fold cT m n.
  destruct (1 <? count_ones cT items) eqn:C.
  - apply Nat.ltb_lt in C.
    destruct (parse_entry data U items Hi C) as (e0 & R0 & _).
    destruct (load_read_Some data _ e0 R0) as (e & R & _).
    fold cT m in R. unfold rho. rewrite (multi_in items e R), R. reflexivity.
  - apply Nat.ltb_ge in C. apply rho_absent. apply load_read_None.
    now apply parse_no_entry.
Qed.

Lemma cross_size (items : list string) :
  In items (data_rows data) ->
  match cross_check (row_key cT items) m with
  | Some true => (radVP h n * 1.25)%R
  | _ => radVP h n
  end = size_of h data items.
Proof.
  intros Hi. unfold size_of. fold cT n.
  destruct (1 <? count_ones cT items) eqn:C.
  - apply Nat.ltb_lt in C.
    destruct (parse_entry data U items Hi C) as (e0 & R0 & S0).
    destruct (load_read_Some data _ e0 R0) as (e & R & A).
    fold cT m in R. unfold cross_check.
    rewrite (multi_in items e R), R, A.
    destruct S0 as (_ & _ & _ & -> & _). unfold cT.
    now destruct (1 <? length (ra_species (parse_row (colTitle data) items))).
  - apply Nat.ltb_ge in C.
    assert (L : (1 <? length (ra_species (parse_row cT items))) = false).
    { apply Nat.ltb_ge. pose proof (species_le_ones cT items). lia. }
    rewrite L. unfold cross_check.
    pose proof (load_read_None data _ (parse_no_entry data U items Hi C)) as Z.
    fold cT m in Z. rewrite Z.
    now destruct (vmp_in _ _).
Qed.

Lemma chart_dot (D : drawn) (k : nat) (d : Dot.t) :
  chart h data = Ok D -> nth_error (vpd D) k = Some d ->
  exists items, In items (data_rows data)
    /\ JS.to_str (Dot.vSp d) = row_key cT items
    /\ (Dot.x d, Dot.y d)
       = rot_pt (fst (ct h) + radius_of h data items, snd (ct h))%R (ct h)
                (slot_deg n k)
    /\ Dot.r d = size_of h data items.
Proof.
  intros H Hk. destruct (chart_Ok _ _ _ H) as (V & _). rewrite V in Hk.
  destruct (nth_dots_from _ _ _ _ _ _ _ Hk) as (t & Ht & ->).
  apply nth_error_In, traversal_rows in Ht.
  simpl csvData in Ht. destruct (parse_rows data) as [Rw _].
  rewrite Rw in Ht. apply in_map_iff in Ht.
  destruct Ht as (items & E & Hi). exists items. split; [exact Hi|].
  unfold expected_dot. cbn [Dot.vSp Dot.x Dot.y Dot.r].
  rewrite <- surjective_pairing. fold (name_key (snd t)).
  rewrite <- E. fold cT. rewrite name_key_row. fold m n.
  rewrite (rho_radius items Hi), (cross_size items Hi). auto.
Qed.

End Radius.

(** ** Across several ant species means deeper *)

Lemma list_sum_ge_in (f : list string -> nat) (l : list (list string))
  (x : list string) :
  In x l -> f x <= list_sum (map f l).
Proof.
  induction l as [|a l IH]; simpl; intros H; [destruct H|].
  destruct H as [->|H]; [lia|]. specialize (IH H). lia.
Qed.

Lemma vMPInd_pos (h : R) (n : nat) :
  (0 < h)%R -> 0 < n -> (0 < vMPInd h n)%R.
Proof.
  intros H N. unfold vMPInd, radVP, radIC, svgH.
  assert (0 < INR n)%R by (apply lt_0_INR; lia).
  pose proof PI_RGT_0.
  assert (0 < 2 * PI * (h * 0.9 * 0.39))%R.
  { apply Rmult_lt_0_compat; [lra|]. apply Rmult_lt_0_compat; lra. }
  assert (0 < 2 * PI * (h * 0.9 * 0.39) / INR n)%R
    by (now apply Rdiv_lt_0_compat).
  lra.
Qed.

Section Bounds.
Variable data : string.
Hypothesis NE : aSpNames data <> [].

(** The levels of the viruses of the mapping, against the maximum [M] of
    the array [indentLevel]. *)
Lemma level_bounds (M : Z) (k : string) (e : vmp_entry) :
  JS.Math_max
    (map (fun aSp => Z.of_nat (length (singles data aSp))) (aSpNames data))
  = JS.Int M ->
  (forall aSp, In aSp (aSpNames data) ->
     (Z.of_nat (length (singles data aSp)) <= M)%Z) ->
  (0 <= M)%Z ->
  k <> "__proto__" ->
  Obj.get k (vmap data) = Some e ->
  exists z, indentLevel e = JS.Int z
    /\ (if crosses (vmap data) k then (M + 2 <= z)%Z else (0 <= z <= M)%Z).
Proof.
  intros E B M0 P H.
  assert (L : level_of (vmap data) k = Some (indentLevel e))
    by (unfold level_of; now rewrite H).
  assert (K : In k (Obj.keys (vmap data))).
  { apply keys_In, get_in_keys. congruence. }
  destruct (crosses (vmap data) k) eqn:C.
  - assert (I : In k (crossers data)) by (apply filter_In; auto).
    apply In_nth_error in I. destruct I as [j Hj].
    rewrite (cross_level_Int data M j k E Hj) in L.
    injection L as <-. eexists; split; [reflexivity|lia].
  - destruct (existsb (fun a => single_in a (vmap data) k) (aSpNames data))
      eqn:X.
    + apply existsb_exists in X. destruct X as (a & Ha & Sa).
      assert (I : In k (singles data a)) by (apply filter_In; auto).
      apply In_nth_error in I. destruct I as [j Hj].
      rewrite (single_level data a j k Ha Hj) in L.
      injection L as <-.
      assert (j < length (singles data a)) by (apply nth_error_Some; congruence).
      specialize (B a Ha). eexists; split; [reflexivity|lia].
    + destruct (assign_indent_levels (aSpNames data) (own (vMP (parse data)))
                  (parse_NoDup data)) as (_ & _ & _ & Un).
      rewrite vmap_eq in L. rewrite Un in L.
      * unfold level_of in L.
        destruct (Obj.get k (own (vMP (parse data)))) as [e0|] eqn:G;
          [|discriminate].
        simpl in L. injection L as <-.
        exists 0%Z. split; [|lia]. apply (parse_level0 data k).
        unfold vmp_read. apply String.eqb_neq in P. now rewrite P.
      * rewrite <- C. symmetry. apply same_species_crosses, vmap_species.
      * intros a Ha.
        assert (Q : single_in a (vmap data) k
                    = single_in a (own (vMP (parse data))) k)
          by apply same_species_single, vmap_species.
        rewrite <- Q.
        destruct (single_in a (vmap data) k) eqn:Sa; auto.
        assert (existsb (fun a => single_in a (vmap data) k) (aSpNames data)
                = true) by (apply existsb_exists; eauto).
        congruence.
Qed.

End Bounds.

Section Deeper.
Variables (h : R) (data : string).
Hypothesis NE : aSpNames data <> [].
Hypothesis U : unique_keys data.
Hypothesis Hh : (0 < h)%R.

Let cT := colTitle data.

Lemma cross_deeper (itemsC itemsS : list string) :
  In itemsC (data_rows data) -> In itemsS (data_rows data) ->
  1 < length (ra_species (parse_row cT itemsC)) ->
  length (ra_species (parse_row cT itemsS)) <= 1 ->
  row_key cT itemsC <> "__proto__" ->
  (radius_of h data itemsC < radius_of h data itemsS)%R.
Proof.
  intros HC HS LC LS PC.
  destruct (max_level_Int data NE) as (M & E & M0 & B & _).
  pose proof (species_le_ones cT itemsC) as OC.
  assert (N : 0 < numVP (load data)).
  { simpl. destruct (parse_rows data) as [_ ->].
    pose proof (list_sum_ge_in (count_ones (colTitle data)) _ _ HC).
    unfold cT in *. lia. }
  pose proof (vMPInd_pos h _ Hh N) as VP.
  (* the line across several ant species *)
  assert (RC : (radius_of h data itemsC
                <= radIC h - vMPInd h (numVP (load data)) * IZR (M + 2))%R).
  { unfold radius_of. fold cT.
    assert (C1 : 1 < count_ones cT itemsC) by lia.
    destruct (parse_entry data U itemsC HC C1) as (e0 & R0 & S0).
    destruct (load_read_Some data _ e0 R0) as (e & R & A).
    fold cT in R. apply Nat.ltb_lt in C1. rewrite C1, R.
    assert (G : Obj.get (row_key cT itemsC) (vmap data) = Some e).
    { unfold vmp_read in R. apply String.eqb_neq in PC. now rewrite PC in R. }
    destruct (level_bounds data M _ e E B M0 PC G) as (z & -> & Z).
    assert (X : crosses (vmap data) (row_key cT itemsC) = true).
    { unfold crosses. rewrite G, A. destruct S0 as (_ & _ & _ & -> & _).
      now apply Nat.ltb_lt. }
    rewrite X in Z. apply IZR_le in Z.
    apply Rplus_le_compat_l, Ropp_le_contravar.
    apply Rmult_le_compat_l; [lra|exact Z]. }
  (* the other line *)
  assert (RS : (radIC h - vMPInd h (numVP (load data)) * IZR M
                <= radius_of h data itemsS)%R).
  { assert (IM : (0 <= IZR M)%R) by (now apply IZR_le).
    assert (Z0 : (radIC h - vMPInd h (numVP (load data)) * IZR M <= radIC h)%R).
    { pose proof (Rmult_le_pos _ _ (Rlt_le _ _ VP) IM). lra. }
    unfold radius_of. fold cT.
    destruct (1 <? count_ones cT itemsS) eqn:C1; [|exact Z0].
    apply Nat.ltb_lt in C1.
    destruct (parse_entry data U itemsS HS C1) as (e0 & R0 & S0).
    destruct (load_read_Some data _ e0 R0) as (e & R & A).
    fold cT in R, R0. rewrite R.
    destruct (String.eqb (row_key cT itemsS) "__proto__") eqn:PS.
    - unfold vmp_read in R, R0. rewrite PS in R, R0.
      change (proto (vMP (load data))) with (proto (vMP (parse data))) in R.
      rewrite R0 in R. injection R as <-.
      destruct S0 as (_ & -> & _). rewrite Rmult_0_r, Rminus_0_r. exact Z0.
    - assert (G : Obj.get (row_key cT itemsS) (vmap data) = Some e).
      { unfold vmp_read in R. now rewrite PS in R. }
      apply String.eqb_neq in PS.
      destruct (level_bounds data M _ e E B M0 PS G) as (z & -> & Z).
      assert (X : crosses (vmap data) (row_key cT itemsS) = false).
      { unfold crosses. rewrite G, A. destruct S0 as (_ & _ & _ & -> & _).
        now apply Nat.ltb_ge. }
      rewrite X in Z. destruct Z as [_ Z]. apply IZR_le in Z.
      apply Rplus_le_compat_l, Ropp_le_contravar.
      apply Rmult_le_compat_l; [lra|exact Z]. }
  assert (IZR M < IZR (M + 2))%R by (apply IZR_lt; lia).
  pose proof (Rmult_lt_compat_l _ _ _ VP H). lra.
Qed.

End Deeper.

Lemma chart_dist (h : R) (data : string) (D : drawn) (d : Dot.t) :
  chart h data = Ok D -> In d (vpd D) ->
  dist (Dot.x d, Dot.y d) (ct h)
  = Rabs (rho h (numVP (load data)) (vMP (load data))
              (JS.to_str (Dot.vSp d))).
Proof.
  intros H Hd. destruct (chart_Ok _ _ _ H) as (V & _). rewrite V in Hd.
  apply In_nth_error in Hd. destruct Hd as [k Hk].
  destruct (nth_dots_from _ _ _ _ _ _ _ Hk) as (t & _ & ->).
  apply expected_dot_dist.
Qed.

(** C7 (as amended).  For a chart of a file whose first column is titled
    [Virus species] and whose kept lines have different names: every dot
    comes from a kept line; it is the point at the signed distance
    [radius_of] on the axis through the centre, rotated by the angle of
    its slot, where [radius_of] is [radIC] less [vMPInd] times the
    indentation level when the line has several presences, and [radIC]
    otherwise; its distance from the centre is the absolute value of
    that; its size is [radVP * 1.25] when the presences of the line span
    several ant species and [radVP] otherwise.  And with a window of
    positive height and at least one ant species, a line across several
    ant species (not named [__proto__]) has a smaller radius than every
    line of at most one ant species. *)
Theorem C7_dot_radius_and_size (h : R) (data : string) (D : drawn)
  (H : chart h data = Ok D)
  (T : nth_error (colTitle data) 0 = Some "Virus species")
  (U : unique_keys data) :
  (forall k d, nth_error (vpd D) k = Some d ->
     exists items, In items (data_rows data)
       /\ JS.to_str (Dot.vSp d) = row_key (colTitle data) items
       /\ (Dot.x d, Dot.y d)
          = rot_pt (fst (ct h) + radius_of h data items, snd (ct h))%R
                   (ct h) (slot_deg (numVP (load data)) k)
       /\ dist (Dot.x d, Dot.y d) (ct h) = Rabs (radius_of h data items)
       /\ Dot.r d = size_of h data items)
  /\ ((0 < h)%R -> aSpNames data <> [] ->
      forall itemsC itemsS,
        In itemsC (data_rows data) -> In itemsS (data_rows data) ->
        1 < length (ra_species (parse_row (colTitle data) itemsC)) ->
        length (ra_species (parse_row (colTitle data) itemsS)) <= 1 ->
        row_key (colTitle data) itemsC <> "__proto__" ->
        (radius_of h data itemsC < radius_of h data itemsS)%R).
Proof.
  split.
  - intros k d Hk.
    destruct (chart_dot h data T U D k d H Hk) as (items & Hi & K & P & S).
    exists items. split; [exact Hi|]. split; [exact K|]. split; [exact P|].
    split; [|exact S]. rewrite P, rot_pt_dist. apply dist_on_axis.
  - intros Hh NE itemsC itemsS. now apply cross_deeper.
Qed.

Lemma sample_unique : unique_keys sample_csv.
Proof. apply nodupb_NoDup. vm_compute. reflexivity. Qed.

Lemma C7_witness :
  exists D, chart 1000 sample_csv = Ok D
  /\ (forall k d, nth_error (vpd D) k = Some d ->
        exists items, In items (data_rows sample_csv)
          /\ dist (Dot.x d, Dot.y d) (ct 1000)
             = Rabs (radius_of 1000 sample_csv items)
          /\ Dot.r d = size_of 1000 sample_csv items)
  /\ (radius_of 1000 sample_csv ["V2"; "C1"; "1"; "0"; "0"; "1"; "0"; "0"]
      < radius_of 1000 sample_csv ["V1"; "C1"; "1"; "1"; "0"; "0"; "0"; "0"])%R.
Proof.
  destruct (chart_valid 1000 sample_csv sample_valid) as (D & HD & _).
  destruct (C7_dot_radius_and_size 1000 sample_csv D HD eq_refl sample_unique)
    as (A & B).
  exists D. split; [exact HD|]. split.
  - intros k d Hk. destruct (A k d Hk) as (items & Hi & _ & _ & Di & S).
    exists items. auto.
  - apply B.
    + lra.
    + exact sample_species.
    + vm_compute. tauto.
    + vm_compute. tauto.
    + vm_compute. lia.
    + vm_compute. lia.
    + vm_compute. discriminate.
Defined.

(** C7 fails as stated: when the first column is not titled
    [Virus species], the layout finds no name for a line; the virus V1
    has two presences and the indentation level 1, and its dots lie at
    [radIC] from the centre. *)
Lemma C7_counterexample :
  exists D d, chart 1000 other_title_csv = Ok D /\ In d (vpd D)
    /\ data_rows other_title_csv = [["V1"; "C1"; "1"; "1"; "0"]]
    /\ count_ones (colTitle other_title_csv) ["V1"; "C1"; "1"; "1"; "0"] = 2
    /\ level_of (vmap other_title_csv) "V1" = Some (JS.Int 1)
    /\ dist (Dot.x d, Dot.y d) (ct 1000) = radIC 1000
    /\ radIC 1000
       <> Rabs (radIC 1000
                - vMPInd 1000 (numVP (load other_title_csv)) * 1)%R.
Proof.
  assert (V : valid_csv other_title_csv = true) by (vm_compute; reflexivity).
  destruct (chart_valid 1000 other_title_csv V) as (D & HD & L).
  destruct (vpd D) as [|d l] eqn:E; [discriminate|].
  exists D, d. split; [exact HD|].
  assert (Hd : In d (vpd D)) by (rewrite E; now left).
  split; [exact Hd|]. split; [reflexivity|]. split; [reflexivity|].
  split; [reflexivity|].
  assert (S : Dot.vSp d = None).
  { pose proof (chart_vSp _ _ _ HD) as M. rewrite E in M.
    vm_compute in M. now injection M. }
  assert (R0 : (radIC 1000 = 351)%R) by (unfold radIC, svgH; lra).
  split.
  - rewrite (chart_dist _ _ _ _ HD Hd), S. cbn [JS.to_str].
    rewrite rho_absent by reflexivity. rewrite R0. apply Rabs_right. lra.
  - assert (N : numVP (load other_title_csv) = 2) by reflexivity. rewrite N.
    pose proof PI_gt_3 as Q. pose proof PI_4 as Q4.
    assert (R1 : (vMPInd 1000 2 = 140.4 * PI)%R).
    { unfold vMPInd, radVP, radIC, svgH. simpl INR. lra. }
    rewrite R0, R1. rewrite Rabs_left by lra. lra.
Qed.

(** * The selection handlers *)






Section HandlerFacts.
Variables (vpd_ : list Dot.t) (vMP_ : vmp_obj) (tLeg_ : legend)
          (ct_ : R * R) (radVP_ : R).






Lemma emphLegTxt_selected (f : bool) (id : string) (u : ui) :
  selectedEntry (emphLegTxt f id u) = selectedEntry u.
Proof. reflexivity. Qed.





End HandlerFacts.

Section Toggle.
Variables (vpd_ : list Dot.t) (vMP_ : vmp_obj) (tLeg_ : legend)
          (ct_ : R * R) (radVP_ : R).



End Toggle.


(** ** Selecting and deselecting a classification *)




Section ClassSelect.
Variables (vpd_ : list Dot.t) (vMP_ : vmp_obj) (tLeg_ : legend)
          (ct_ : R * R) (radVP_ : R).









End ClassSelect.

(** ** No entry is selected twice *)


Section NoDupSel.
Variables (vpd_ : list Dot.t) (vMP_ : vmp_obj) (tLeg_ : legend)
          (ct_ : R * R) (radVP_ : R).






End NoDupSel.





(** ** Attributes written twice *)








(** ** Elements appended and removed *)



(** ** What emphasising and de-emphasising write *)

Section Emph.
Variables (vpd_ : list Dot.t) (vMP_ : vmp_obj) (ct_ : R * R) (radVP_ : R).







End Emph.

(** ** Selecting and deselecting a virus *)



Section VirusRoundTrip.
Variables (vpd_ : list Dot.t) (vMP_ : vmp_obj) (tLeg_ : legend)
          (ct_ : R * R) (radVP_ : R).



End VirusRoundTrip.

(** ** The loops of a classification, state by state *)


Section ClassLoops.
Variables (vpd_ : list Dot.t) (vMP_ : vmp_obj) (tLeg_ : legend)
          (ct_ : R * R) (radVP_ : R).




End ClassLoops.

(** ** Undoing the loop of a classification *)










Section ClassRoundTrip.
Variables (vpd_ : list Dot.t) (vMP_ : vmp_obj) (tLeg_ : legend)
          (ct_ : R * R) (radVP_ : R).



End ClassRoundTrip.





Lemma C6_witness :
  (exists z, level_of (vmap sample_csv) "V2" = Some (JS.Int z) /\ (1 <= z)%Z)
  /\ (exists zc zs, level_of (vmap sample_csv) "V2" = Some (JS.Int zc)
                    /\ level_of (vmap sample_csv) "V3" = Some (JS.Int zs)
                    /\ (zs < zc)%Z)
  /\ (exists e, Obj.get "V2" (vmap sample_csv) = Some e
                /\ length (antSpecies e) = 2
                /\ In "V2" (crossers sample_csv)).
Proof.
  destruct (C6_levels_positive_cross_deepest sample_csv sample_species)
    as (P & C & T).
  split; [|split].
  - apply P. left. vm_compute. tauto.
  - apply (C "V2" "V3" "SpA x"); vm_compute; tauto.
  - apply (T ["V2"; "C1"; "1"; "0"; "0"; "1"; "0"; "0"] "SpA x" "SpB y").
    + exact sample_unique.
    + vm_compute. tauto.
    + split; [discriminate|]. intros x. vm_compute.
      split.
      * intros [H|[H|[]]]; [left|right]; congruence.
      * intros [H|H]; [left|right; left]; congruence.
    + vm_compute. discriminate.
Defined.
